(** * contact-merge: matching and merging engine

    A shallow embedding of [src/contact-merge.py] (normalisation, similarity
    scoring, field merging and the two deduplication modes) together with the
    properties stated about them.

    Modelling conventions.
    - A Python [str] is a [string] that holds the bytes of its UTF-8
      encoding; [Str.chars] cuts it into its characters. The whitespace that
      [str.strip] removes is the set of the 29 characters for which
      [str.isspace] holds, ASCII or not. Comparing, joining and splitting at
      [;] act on the encoding as they act on the characters.
    - What depends on the Unicode database of the interpreter is part of the
      interface [Externals]: which characters beyond ASCII are decimal
      digits for the pattern [\D], and what [str.lower] makes of a string
      that is not pure ASCII. On ASCII the two are defined here.
    - A contact (an [OrderedDict] from field names to strings) is an
      association list in insertion order; [dict_get] and [dict_set] are the
      dictionary's [.get(k)] and [d[k] = v]. The records of an input list are
      distinct objects, as the importers create them, so a list of records is
      a list of values and an assignment to a record is an update at its
      index.
    - Scores are rational numbers: the third-party similarity functions
      [fuzz.ratio] and [fuzz.token_set_ratio] and the rendering [str] of a
      score belong to [Externals] as well, and the arithmetic mean is taken
      exactly.
    - A [KeyError] is the result [None]; what is printed is returned with the
      result. *)

From Stdlib Require Import Ascii String QArith Lqa.
From stdpp Require Import base option list strings pretty gmap.

Local Open Scope string_scope.
Local Open Scope list_scope.
Local Open Scope nat_scope.

(** What the engine uses from outside the repository: [rapidfuzz.fuzz.ratio],
    [rapidfuzz.fuzz.token_set_ratio], [str] applied to a score, and the
    Unicode database of the interpreter: [decimal ch] tells whether the
    character [ch] beyond ASCII (given by its UTF-8 encoding) is a decimal
    digit (category Nd), and [unicode_lower s] is [s.lower()] for a string
    [s] that is not pure ASCII. *)
Class Externals : Type := {
  fuzz_ratio : string → string → Q;
  fuzz_token_set_ratio : string → string → Q;
  str : Q → string;
  decimal : string → bool;
  unicode_lower : string → string
}.

(** ** Characters and strings *)

Module Str.

Definition code (c : ascii) : N := Ascii.N_of_ascii c.

Definition byte (n : N) : ascii := Ascii.ascii_of_N n.

(** The UTF-8 encoding of the character with code point [n]. *)
Definition utf8 (n : N) : string :=
  if (n <? 0x80)%N then String (byte n) ""
  else if (n <? 0x800)%N then
    String (byte (0xC0 + n / 0x40)) (String (byte (0x80 + n mod 0x40)) "")
  else if (n <? 0x10000)%N then
    String (byte (0xE0 + n / 0x1000))
      (String (byte (0x80 + (n / 0x40) mod 0x40))
         (String (byte (0x80 + n mod 0x40)) ""))
  else
    String (byte (0xF0 + n / 0x40000))
      (String (byte (0x80 + (n / 0x1000) mod 0x40))
         (String (byte (0x80 + (n / 0x40) mod 0x40))
            (String (byte (0x80 + n mod 0x40)) ""))).

(** The bytes [10xxxxxx], which continue a character. *)
Definition is_continuation (c : ascii) : bool :=
  (0x80 <=? code c)%N && (code c <? 0xC0)%N.

Definition starts_inside (s : string) : bool :=
  match s with
  | String c _ => is_continuation c
  | "" => false
  end.

Definition glue (c : ascii) (l : list string) : list string :=
  match l with
  | ch :: chs => String c ch :: chs
  | [] => [String c ""]
  end.

(** The characters of a string, in order: each is a byte together with the
    continuation bytes that follow it. *)
Fixpoint chars (s : string) : list string :=
  match s with
  | "" => []
  | String c s' =>
      if starts_inside s' then glue c (chars s') else String c "" :: chars s'
  end.

(** [''.join(l)] *)
Definition join (l : list string) : string := foldr String.append "" l.

(** The code points of the characters [c] with [c.isspace()]: TAB..CR,
    FS..US, SPACE, NEL, NBSP, OGHAM SPACE MARK, EN QUAD..HAIR SPACE, LINE and
    PARAGRAPH SEPARATOR, NARROW NO-BREAK SPACE, MEDIUM MATHEMATICAL SPACE,
    IDEOGRAPHIC SPACE. *)
Definition whitespace : list N :=
  [0x09; 0x0A; 0x0B; 0x0C; 0x0D; 0x1C; 0x1D; 0x1E; 0x1F; 0x20; 0x85; 0xA0;
   0x1680; 0x2000; 0x2001; 0x2002; 0x2003; 0x2004; 0x2005; 0x2006; 0x2007;
   0x2008; 0x2009; 0x200A; 0x2028; 0x2029; 0x202F; 0x205F; 0x3000]%N.

(** Whitespace as [str.strip] and [str.split] see it. *)
Definition is_space (ch : string) : bool :=
  bool_decide (ch ∈ utf8 <$> whitespace).

(** A list of characters without its leading whitespace ... *)
Fixpoint ltrim (l : list string) : list string :=
  match l with
  | [] => []
  | ch :: l' => if is_space ch then ltrim l' else l
  end.

(** ... and without its trailing whitespace. *)
Fixpoint rtrim (l : list string) : list string :=
  match l with
  | [] => []
  | ch :: l' =>
      match rtrim l' with
      | [] => if is_space ch then [] else [ch]
      | r => ch :: r
      end
  end.

(** [s.strip()] *)
Definition strip (s : string) : string := join (rtrim (ltrim (chars s))).

(** [s.split(sep)] for a one-character ASCII separator: never the empty
    list. *)
Fixpoint split (sep : ascii) (s : string) : list string :=
  match s with
  | "" => [""]
  | String c s' =>
      if Ascii.eqb c sep then "" :: split sep s'
      else match split sep s' with
           | [] => [String c ""]
           | t :: ts => String c t :: ts
           end
  end.

Fixpoint is_ascii (s : string) : bool :=
  match s with
  | "" => true
  | String c s' => (code c <? 0x80)%N && is_ascii s'
  end.

Definition lower_char (c : ascii) : ascii :=
  if (65 <=? code c)%N && (code c <=? 90)%N
  then byte (code c + 32) else c.

Fixpoint lower_ascii (s : string) : string :=
  match s with
  | "" => ""
  | String c s' => String (lower_char c) (lower_ascii s')
  end.

(** [s.lower()] *)
Definition lower {E : Externals} (s : string) : string :=
  if is_ascii s then lower_ascii s else unicode_lower s.

Definition ascii_digit (c : ascii) : bool :=
  (48 <=? code c)%N && (code c <=? 57)%N.

(** [\d] of the [re] module, for a [str] pattern: a decimal digit, ASCII or
    not. *)
Definition is_digit {E : Externals} (ch : string) : bool :=
  if is_ascii ch then
    match ch with
    | String c "" => ascii_digit c
    | _ => false
    end
  else decimal ch.

(** [re.sub(r'\D', '', s)] *)
Definition digits {E : Externals} (s : string) : string :=
  join (filter (λ ch, is_digit ch = true) (chars s)).

(** Truth value of a string: non-empty. *)
Definition truthy (s : string) : bool := negb (String.eqb s "").

(** The shape of the items of [chars s]: every item is a byte followed by
    continuation bytes only, and every item but the first starts a
    character. *)
Fixpoint all_continuation (s : string) : bool :=
  match s with
  | "" => true
  | String c s' => is_continuation c && all_continuation s'
  end.

Definition group (ch : string) : Prop :=
  match ch with
  | String _ t => all_continuation t = true
  | "" => False
  end.

Definition wf_chars (l : list string) : Prop :=
  Forall group l ∧ Forall (λ ch, starts_inside ch = false) (tail l).


End Str.

(** ** Contact records *)

Definition record : Type := list (string * string).

Fixpoint dict_get (k : string) (r : record) : option string :=
  match r with
  | [] => None
  | (k', v) :: r' => if String.eqb k' k then Some v else dict_get k r'
  end.

Fixpoint dict_set (k v : string) (r : record) : record :=
  match r with
  | [] => [(k, v)]
  | (k', v') :: r' =>
      if String.eqb k' k then (k, v) :: r' else (k', v') :: dict_set k v r'
  end.

(** [r.get(k)] used as a condition: the field is present and non-empty. *)
Definition populated (k : string) (r : record) : bool :=
  match dict_get k r with
  | Some v => Str.truthy v
  | None => false
  end.

(** [r.get(k, "")] *)
Definition field_value (k : string) (r : record) : string :=
  default "" (dict_get k r).

(** The [;]-separated sub-values of the trimmed value of field [k]. *)
Definition field_tokens (k : string) (r : record) : list string :=
  Str.split ";" (Str.strip (field_value k r)).

(** A dictionary has each key once. *)
Definition wf_record (r : record) : Prop := NoDup (r.*1).

#[global] Instance wf_record_dec (r : record) : Decision (wf_record r).
Proof. unfold wf_record. apply _. Defined.

Definition has_uid (r : record) : Prop := is_Some (dict_get "uid" r).

#[global] Instance has_uid_dec (r : record) : Decision (has_uid r).
Proof. unfold has_uid. apply _. Defined.

(** ** Field normaliser *)

Definition normalize_phone {E : Externals} (phone : string) : string :=
  Str.digits phone.

(** [p.strip().lower()] *)
Definition normalize_email {E : Externals} (p : string) : string :=
  Str.lower (Str.strip p).

(** ** Similarity scorer *)

(** [max] keeps the running maximum [m] unless the next item is greater. *)
Definition pick_max (m y : Q) : Q := if Qle_bool y m then m else y.

(** [max] of a non-empty list of numbers: the first maximal item. *)
Definition py_max (l : list Q) : option Q :=
  match l with
  | [] => None
  | x :: l' => Some (fold_left pick_max l' x)
  end.

(** [sum] *)
Definition py_sum (l : list Q) : Q := fold_left Qplus l 0%Q.

(** [[norm(p) for p in field.split(';') if p.strip()]] *)
Definition sub_values (norm : string → string) (field : string) : list string :=
  norm <$> filter (λ p, Str.truthy (Str.strip p) = true) (Str.split ";" field).

(** The nested loops [for x in xs: for y in ys: if x and y: append(sim(x, y))]. *)
Definition pair_scores (sim : string → string → Q) (xs ys : list string) : list Q :=
  x ← xs; y ← ys; if Str.truthy x && Str.truthy y then [sim x y] else [].

(** The comparison of a multi-valued field, as written once for [tel] (with
    [normalize_phone]) and once for [email] (with [strip().lower()]): what it
    appends to [scores]. *)
Definition multi_score (sim : string → string → Q) (norm : string → string)
    (k : string) (a b : record) : list Q :=
  match dict_get k a, dict_get k b with
  | Some va, Some vb =>
      if Str.truthy va && Str.truthy vb then
        match py_max (pair_scores sim (sub_values norm va) (sub_values norm vb)) with
        | Some m => [m]
        | None => []
        end
      else []
  | _, _ => []
  end.

(** The comparison of the full names: what it appends to [scores]. *)
Definition name_score (tsr : string → string → Q) (a b : record) : list Q :=
  match dict_get "fn" a, dict_get "fn" b with
  | Some va, Some vb =>
      if Str.truthy va && Str.truthy vb then [tsr va vb] else []
  | _, _ => []
  end.

Section Scorer.

Context {E : Externals}.

(** The list [scores] at the end of [compute_match_score]. *)
Definition score_list (contact_a contact_b : record) : list Q :=
  multi_score fuzz_ratio normalize_phone "tel" contact_a contact_b
  ++ multi_score fuzz_ratio normalize_email "email" contact_a contact_b
  ++ name_score fuzz_token_set_ratio contact_a contact_b.

Definition compute_match_score (contact_a contact_b : record) : Q :=
  match score_list contact_a contact_b with
  | [] => 0%Q
  | scores => (py_sum scores / inject_Z (Z.of_nat (length scores)))%Q
  end.

End Scorer.

(** ** Field merger *)

Definition reserved (key : string) : bool :=
  bool_decide (key ∈ ["uid"; "match"; "certainty"]).

(** One iteration of the loop of [merge_contacts], for the item [(key, value)]
    of the duplicate. *)
Definition merge_field (master : record) (key value : string) : record :=
  if reserved key then master
  else
    let dup_value := Str.strip value in
    let master_value := Str.strip (field_value key master) in
    if negb (Str.truthy master_value) && Str.truthy dup_value then
      dict_set key dup_value master
    else if Str.truthy dup_value
            && negb (bool_decide (dup_value ∈ Str.split ";" master_value)) then
      dict_set key
        (if Str.truthy master_value then master_value +:+ ";" +:+ dup_value
         else dup_value) master
    else master.

Definition merge_contacts (master duplicate : record) : record :=
  fold_left (λ m kv, merge_field m kv.1 kv.2) duplicate master.

(** Which categories a record can really be compared on: a telephone
    sub-value that holds a digit, an e-mail sub-value that is not blank, a
    full name that is not blank. *)
Definition has_phone {E : Externals} (r : record) : Prop :=
  ∃ v p, dict_get "tel" r = Some v ∧ p ∈ Str.split ";" v ∧ normalize_phone p ≠ "".

Definition has_email (r : record) : Prop :=
  ∃ v p, dict_get "email" r = Some v ∧ p ∈ Str.split ";" v ∧ Str.strip p ≠ "".

Definition has_name (r : record) : Prop :=
  ∃ v, dict_get "fn" r = Some v ∧ Str.strip v ≠ "".

(** The full name, when there is one, is empty or holds a token. *)
Definition name_not_blank (r : record) : Prop :=
  ∀ v, dict_get "fn" r = Some v → v = "" ∨ Str.strip v ≠ "".

(** ** Deduplication engine *)

(** What a dry run prints for a detected duplicate. *)
Record notice : Type := Notice {
  notice_contact_uid : string;
  notice_master_uid : string;
  notice_score : Q
}.

Section Engine.

Context {E : Externals}.

(** The inner loop of link mode: [current] against the earlier records. *)
Fixpoint link_scan (threshold : Q) (current : record) (candidates : list record)
    : option record :=
  match candidates with
  | [] => Some current
  | candidate :: rest =>
      if Qle_bool threshold (compute_match_score current candidate) then
        match dict_get "uid" candidate with
        | Some uid =>
            Some (dict_set "certainty" (str (compute_match_score current candidate))
                    (dict_set "match" uid current))
        | None => None
        end
      else link_scan threshold current rest
  end.

(** One iteration of the outer loop of link mode, at index [i]. *)
Definition link_step (threshold : Q) (contacts : list record) (i : nat)
    : option (list record) :=
  match contacts !! i with
  | Some current =>
      match link_scan threshold current (take i contacts) with
      | Some current' => Some (<[i := current']> contacts)
      | None => None
      end
  | None => None
  end.

(** The outer loop of link mode, over [range(1, len(contacts))]. *)
Fixpoint link_loop (threshold : Q) (indices : list nat) (contacts : list record)
    : option (list record) :=
  match indices with
  | [] => Some contacts
  | i :: indices' =>
      match link_step threshold contacts i with
      | Some contacts' => link_loop threshold indices' contacts'
      | None => None
      end
  end.

(** The inner loop of merge mode: [contact] against the masters, in order.
    The result is [found_match], the masters and what was printed. *)
Fixpoint scan_masters (threshold : Q) (dry_run : bool) (contact : record)
    (masters : list record) : option (bool * list record * list notice) :=
  match masters with
  | [] => Some (false, [], [])
  | master :: rest =>
      if Qle_bool threshold (compute_match_score contact master) then
        if dry_run then
          match dict_get "uid" contact, dict_get "uid" master with
          | Some cu, Some mu =>
              Some (true, master :: rest, [Notice cu mu (compute_match_score contact master)])
          | _, _ => None
          end
        else Some (true, merge_contacts master contact :: rest, [])
      else
        match scan_masters threshold dry_run contact rest with
        | Some (found, rest', printed) => Some (found, master :: rest', printed)
        | None => None
        end
  end.

(** The outer loop of merge mode, with the master list and the output so far. *)
Fixpoint merge_loop (threshold : Q) (dry_run : bool) (contacts masters : list record)
    (printed : list notice) : option (list record * list notice) :=
  match contacts with
  | [] => Some (masters, printed)
  | contact :: rest =>
      match scan_masters threshold dry_run contact masters with
      | Some (found_match, masters', out) =>
          merge_loop threshold dry_run rest
            (if found_match then masters' else masters' ++ [contact])
            (printed ++ out)
      | None => None
      end
  end.

(** The returned records together with the lines printed. *)
Definition deduplicate_contacts (contacts : list record) (threshold : Q)
    (merge dry_run : bool) : option (list record * list notice) :=
  if negb merge then
    match link_loop threshold (seq 1 (length contacts - 1)) contacts with
    | Some contacts' => Some (contacts', [])
    | None => None
    end
  else merge_loop threshold dry_run contacts [] [].

(** The state of link mode before iteration [i] of the outer loop, for the
    input [orig]: the records before [i] have been through their inner loop,
    the others are as they came. *)
Definition link_inv (threshold : Q) (orig : list record) (i : nat)
    (contacts : list record) : Prop :=
  length contacts = length orig
  ∧ ∀ k c, orig !! k = Some c →
      (k < i → ∃ c', link_scan threshold c (take k orig) = Some c'
                     ∧ contacts !! k = Some c')
      ∧ (i ≤ k → contacts !! k = Some c).

(** No record of [rest] reaches the threshold against a master of [masters]
    or against a record before it in [rest]. *)
Definition no_hit (threshold : Q) (rest masters : list record) : Prop :=
  ∀ k c, rest !! k = Some c →
    Forall (λ m, Qle_bool threshold (compute_match_score c m) = false) (masters ++ take k rest).

End Engine.

(** Two records agree on what the engine reads of an earlier record. *)
Definition same_core (c c' : record) : Prop :=
  ∀ k, k ∈ ["tel"; "email"; "fn"; "uid"] → dict_get k c = dict_get k c'.

(** A master in merge mode: the record that founded it, and the duplicates it
    absorbed, in order. *)
Definition cluster_master (g : record * list record) : record :=
  fold_left merge_contacts g.2 g.1.

(** ** A reference instance of the interface *)

Module SpecFuzz.

(** Edit distance (insertions, deletions, substitutions). *)
Fixpoint lev (a : string) : string → nat :=
  match a with
  | "" => String.length
  | String x a' =>
      fix lev_a (b : string) : nat :=
        match b with
        | "" => S (String.length a')
        | String y b' =>
            (S (lev a' b)) `min`
            ((S (lev_a b')) `min` (lev a' b' + (if Ascii.eqb x y then 0 else 1)))
        end
  end.

(** Modelled from the spec: [fuzz.ratio] belongs to a third-party library;
    this is the normalised edit-distance ratio
    [100 * (1 - distance / max(len(a), len(b)))] of section 4.2, with 100
    for two empty strings. *)
Definition ratio (a b : string) : Q :=
  let m := String.length a `max` String.length b in
  if Nat.eqb m 0 then 100%Q
  else (100 * (1 - inject_Z (Z.of_nat (lev a b)) / inject_Z (Z.of_nat m)))%Q.

(** [s.split()]: the maximal runs of non-whitespace characters. *)
Fixpoint words_aux (cur : string) (l : list string) : list string :=
  match l with
  | [] => if Str.truthy cur then [cur] else []
  | ch :: l' =>
      if Str.is_space ch
      then (if Str.truthy cur then [cur] else []) ++ words_aux "" l'
      else words_aux (cur +:+ ch) l'
  end.

Definition words (s : string) : list string := words_aux "" (Str.chars s).

Definition tokens (s : string) : gset string := list_to_set (words s).

(** Modelled from the spec: [fuzz.token_set_ratio] belongs to a third-party
    library; this is an order- and duplicate-insensitive token overlap ratio
    on the 0-100 scale (section 4.2): twice the number of shared tokens over
    the number of tokens of both sides, and 0 when there is no token. *)
Definition token_set_ratio (a b : string) : Q :=
  let n := size (tokens a) + size (tokens b) in
  if Nat.eqb n 0 then 0%Q
  else (100 * inject_Z (Z.of_nat (2 * size (tokens a ∩ tokens b)))
        / inject_Z (Z.of_nat n))%Q.

(** A rendering of scores, standing for [str]. *)
Definition show_score (q : Q) : string :=
  if Qeq_bool q 100 then "100.0" else if Qeq_bool q 0 then "0" else "?".

(** Modelled from the Unicode standard, version 14.0: the decimal digits
    beyond ASCII (category Nd) come in runs of ten; these are their zeros. *)
Definition decimal_zeros : list N :=
  [0x660; 0x6F0; 0x7C0; 0x966; 0x9E6; 0xA66; 0xAE6; 0xB66; 0xBE6; 0xC66;
   0xCE6; 0xD66; 0xDE6; 0xE50; 0xED0; 0xF20; 0x1040; 0x1090; 0x17E0; 0x1810;
   0x1946; 0x19D0; 0x1A80; 0x1A90; 0x1B50; 0x1BB0; 0x1C40; 0x1C50; 0xA620;
   0xA8D0; 0xA900; 0xA9D0; 0xA9F0; 0xAA50; 0xABF0; 0xFF10; 0x104A0; 0x10D30;
   0x11066; 0x110F0; 0x11136; 0x111D0; 0x112F0; 0x11450; 0x114D0; 0x11650;
   0x116C0; 0x11730; 0x118E0; 0x11950; 0x11C50; 0x11D50; 0x11DA0; 0x16A60;
   0x16AC0; 0x16B50; 0x1D7CE; 0x1D7D8; 0x1D7E2; 0x1D7EC; 0x1D7F6; 0x1E140;
   0x1E2F0; 0x1E950; 0x1FBF0]%N.

Definition decimal_digits : list string :=
  z ← decimal_zeros;
  (λ k, Str.utf8 (z + k)) <$> [0; 1; 2; 3; 4; 5; 6; 7; 8; 9]%N.

Definition decimal_digit (ch : string) : bool :=
  bool_decide (ch ∈ decimal_digits).

(** Modelled from the Unicode standard: lower case for the letters of ASCII
    and of Latin-1 (U+00C0..U+00DE but U+00D7, two bytes each); other
    characters are left as they are. *)
Definition lower_latin1 (ch : string) : string :=
  match ch with
  | String c "" => String (Str.lower_char c) ""
  | String c (String d "") =>
      if (Str.code c =? 0xC3)%N && (0x80 <=? Str.code d)%N
         && (Str.code d <=? 0x9E)%N && negb (Str.code d =? 0x97)%N
      then String c (String (Str.byte (Str.code d + 0x20)) "")
      else ch
  | _ => ch
  end.

Definition lower_chars (s : string) : string :=
  Str.join (lower_latin1 <$> Str.chars s).

Definition reference : Externals :=
  {| fuzz_ratio := ratio; fuzz_token_set_ratio := token_set_ratio;
     str := show_score; decimal := decimal_digit; unicode_lower := lower_chars |}.

End SpecFuzz.

(** ** Field-order tracker *)

(** [key in ['match', 'certainty']] *)
Definition metadata (key : string) : bool :=
  bool_decide (key ∈ ["match"; "certainty"]).

(** The body of the inner loop of [compute_field_order], for one key. *)
Definition field_order_step (order : list string) (key : string) : list string :=
  if metadata key then order
  else if bool_decide (key ∈ order) then order
  else order ++ [key].

Definition compute_field_order (contacts : list record) : list string :=
  fold_left (λ order contact, fold_left field_order_step contact.*1 order)
    contacts [].

(** ** Import and export *)

(** A parsed vCard as [parse_vcf_to_contacts] reads it: [vcard.contents],
    the property names in order, each with its items. An item stands for
    [str(item.value)]; it is [None] when that conversion raises. Reading the
    file and parsing it into components belong to the vCard library. *)
Definition vcard : Type := list (string * list (option string)).

(** [value = str(item.value)], or [''] in the [except] branch. *)
Definition item_value (item : option string) : string := default "" item.

(** [';'.join(values)] for the items of one property. *)
Definition joined_items (items : list (option string)) : string :=
  String.concat ";" (item_value <$> items).

(** The loop over [vcard.contents.items()]: [contact[key] = ';'.join(values)]. *)
Definition card_fields (card : vcard) (contact : record) : record :=
  fold_left (λ contact kv, dict_set kv.1 (joined_items kv.2) contact) card contact.

(** The body of the loop of [parse_vcf_to_contacts], for the vCard at
    position [idx]; [pretty idx] is [str(idx)]. *)
Definition vcard_to_contact (idx : nat) (card : vcard) : record :=
  dict_set "certainty" ""
    (dict_set "match" ""
       (card_fields card (dict_set "uid" (pretty idx) []))).

(** [parse_vcf_to_contacts], from the components of the file. *)
Definition parse_vcf_to_contacts (vcards : list vcard) : list record :=
  imap vcard_to_contact vcards.

(** The header of [write_contacts_to_csv]. *)
Definition csv_header (field_order : list string) : list string :=
  ["match"; "certainty"] ++ field_order.

(** The fields [write_contacts_to_vcf] passes to [card.add] for the card of
    one contact, in order: [for key in field_order: if key in contact:
    card.add(key).value = contact[key]] (an addition that raises is reported
    and skipped by the source). *)
Definition vcf_fields (field_order : list string) (contact : record)
    : list (string * string) :=
  omap (λ key, (λ v, (key, v)) <$> dict_get key contact) field_order.

(** The telephone numbers and e-mail addresses of a record that enter a
    comparison: the normalised sub-values that are not empty. *)
Definition phone_numbers {E : Externals} (r : record) : list string :=
  filter (λ p, Str.truthy p = true)
    (sub_values normalize_phone (field_value "tel" r)).

Definition email_addresses {E : Externals} (r : record) : list string :=
  filter (λ p, Str.truthy p = true)
    (sub_values normalize_email (field_value "email" r)).

(** Values that hold no [;]: a single sub-value. *)
Definition single_valued (v : string) : Prop :=
  Str.split ";" (Str.strip v) = [Str.strip v].

(** * Properties *)

(** Membership in a list given by its elements. *)
Ltac in_list := repeat first [apply list_elem_of_here | apply list_elem_of_further].

(** Closed decidable side conditions are settled by evaluation. *)
Ltac by_evaluation := apply (bool_decide_unpack _); vm_compute; exact I.

(** ** Strings *)

Module StrFacts.
Import Str.

Lemma truthy_true s : truthy s = true ↔ s ≠ "".
Proof. unfold truthy. destruct s; simpl; split; congruence. Qed.

Lemma truthy_false s : truthy s = false ↔ s = "".
Proof. unfold truthy. destruct s; simpl; split; congruence. Qed.

Lemma append_nil_l b : "" +:+ b = b.
Proof. reflexivity. Qed.

Lemma append_cons c a b : String c a +:+ b = String c (a +:+ b).
Proof. reflexivity. Qed.

Lemma append_nil_r a : a +:+ "" = a.
Proof. induction a as [|c a IH]; [done|]. by rewrite append_cons, IH. Qed.

Lemma append_empty a b : a +:+ b = "" → a = "" ∧ b = "".
Proof. destruct a; [done|]. rewrite append_cons. discriminate. Qed.

Lemma append_assoc (a b c : string) : (a +:+ b) +:+ c = a +:+ (b +:+ c).
Proof. induction a as [|x a IH]; [done|]. by rewrite !append_cons, IH. Qed.

(** *** Characters *)

Lemma join_nil : join [] = "".
Proof. reflexivity. Qed.

Lemma join_cons ch l : join (ch :: l) = ch +:+ join l.
Proof. reflexivity. Qed.


Lemma join_glue c l : join (glue c l) = String c (join l).
Proof.
  destruct l as [|ch chs]; cbn [glue]; rewrite !join_cons; [|done].
  by rewrite join_nil, append_nil_r.
Qed.

Lemma chars_cons c s :
  chars (String c s)
  = if starts_inside s then glue c (chars s) else String c "" :: chars s.
Proof. reflexivity. Qed.

Lemma join_chars s : join (chars s) = s.
Proof.
  induction s as [|c s IH]; [done|]. rewrite chars_cons.
  destruct (starts_inside s).
  - by rewrite join_glue, IH.
  - by rewrite join_cons, IH.
Qed.

Lemma chars_nil s : chars s = [] → s = "".
Proof. intros H. by rewrite <- (join_chars s), H. Qed.

Lemma glue_app c l1 l2 : l1 ≠ [] → glue c (l1 ++ l2) = glue c l1 ++ l2.
Proof. by destruct l1. Qed.

Lemma starts_inside_app a b :
  starts_inside (a +:+ b) = if String.eqb a "" then starts_inside b else starts_inside a.
Proof. by destruct a. Qed.

(** Two strings are cut into characters one after the other when the second
    one starts a character. *)
Lemma chars_app a b :
  starts_inside b = false → chars (a +:+ b) = chars a ++ chars b.
Proof.
  intros Hb. induction a as [|c a IH]; [done|].
  rewrite append_cons, !chars_cons, IH, starts_inside_app.
  destruct a as [|d a]; simpl String.eqb; cbv iota.
  - by rewrite Hb.
  - destruct (starts_inside (String d a)); [|done].
    apply glue_app. rewrite chars_cons. by destruct (starts_inside a), (chars a).
Qed.

Lemma chars_group c t :
  all_continuation t = true → chars (String c t) = [String c t].
Proof.
  revert c. induction t as [|d t IH]; intros c; [done|].
  simpl all_continuation. intros [Hd Ht]%andb_true_iff.
  rewrite chars_cons. simpl starts_inside. rewrite Hd. by rewrite (IH d Ht).
Qed.

Lemma chars_of_group ch : group ch → chars ch = [ch].
Proof. destruct ch as [|c t]; [done|]. apply chars_group. Qed.

Lemma chars_head_inside s ch chs :
  chars s = ch :: chs → starts_inside ch = starts_inside s.
Proof.
  destruct s as [|c s]; [done|]. rewrite chars_cons.
  destruct (starts_inside s); [|by intros [= <- _]].
  destruct (chars s); by intros [= <- _].
Qed.

Lemma chars_wf s : wf_chars (chars s).
Proof.
  unfold wf_chars. induction s as [|c s [IHg IHa]]; [by split|].
  rewrite chars_cons. destruct (starts_inside s) eqn:Hs.
  - destruct (chars s) as [|ch chs] eqn:Hc.
    { apply chars_nil in Hc. by subst. }
    simpl. split; [|done].
    apply Forall_cons in IHg as [Hg IHg]. constructor; [|done].
    pose proof (chars_head_inside _ _ _ Hc) as Hh. rewrite Hs in Hh.
    destruct ch as [|d t]; [done|]. simpl in *. by rewrite Hh, Hg.
  - simpl. split; [by constructor|].
    destruct (chars s) as [|ch chs] eqn:Hc; [done|].
    constructor; [|done]. by rewrite (chars_head_inside _ _ _ Hc).
Qed.

Lemma wf_chars_tail ch l : wf_chars (ch :: l) → wf_chars l.
Proof.
  intros [Hg Ha]. apply Forall_cons in Hg as [_ Hg]. split; [done|].
  simpl in Ha. destruct l; [done|]. simpl. by apply Forall_cons in Ha as [_ ?].
Qed.

Lemma wf_chars_join_inside ch l : wf_chars (ch :: l) → starts_inside (join l) = false.
Proof.
  intros [Hg Ha]. destruct l as [|d l]; [done|].
  simpl in Ha. apply Forall_cons in Ha as [Hd _].
  apply Forall_cons in Hg as [_ Hg]. apply Forall_cons in Hg as [Hgd _].
  rewrite join_cons. by destruct d.
Qed.

(** A list of characters is the list of characters of the string it makes. *)
Lemma chars_join l : wf_chars l → chars (join l) = l.
Proof.
  induction l as [|ch l IH]; [done|]. intros Hwf.
  rewrite join_cons, chars_app by (by eapply wf_chars_join_inside).
  rewrite IH by (by eapply wf_chars_tail).
  destruct Hwf as [Hg _]. apply Forall_cons in Hg as [Hg _].
  by rewrite chars_of_group.
Qed.

Lemma tail_sublist {A} (l1 l2 : list A) x :
  l1 `sublist_of` l2 → x ∈ tail l1 → x ∈ tail l2.
Proof.
  induction 1 as [|y l1 l2 Hsub IH|y l1 l2 Hsub IH]; simpl; [done| |].
  - intros. by eapply elem_of_sublist.
  - intros Hx. eapply elem_of_sublist; [|exact Hsub]. destruct l1; simpl in *; [done|].
    by right.
Qed.

Lemma wf_chars_sublist l1 l2 : l1 `sublist_of` l2 → wf_chars l2 → wf_chars l1.
Proof.
  intros Hsub [Hg Ha]. split.
  - apply Forall_forall. intros x Hx. eapply (proj1 (Forall_forall _ _) Hg).
    by eapply elem_of_sublist.
  - apply Forall_forall. intros x Hx. eapply (proj1 (Forall_forall _ _) Ha).
    by eapply tail_sublist.
Qed.

Lemma join_empty l : Forall group l → join l = "" → l = [].
Proof.
  destruct l as [|ch l]; [done|]. intros [Hg _]%Forall_cons.
  rewrite join_cons. intros [-> _]%append_empty. done.
Qed.

(** *** Trimming a list of characters *)

Lemma ltrim_sublist l : ltrim l `sublist_of` l.
Proof.
  induction l as [|x l IH]; simpl; [done|].
  destruct (is_space x); [by constructor|done].
Qed.

Lemma rtrim_sublist l : rtrim l `sublist_of` l.
Proof.
  induction l as [|x l IH]; simpl; [done|].
  destruct (rtrim l) as [|y r].
  - destruct (is_space x); [by constructor|]. by constructor.
  - by constructor.
Qed.

Lemma ltrim_head l x r : ltrim l = x :: r → is_space x = false.
Proof.
  induction l as [|y l IH]; simpl; [done|].
  destruct (is_space y) eqn:Hy; [exact IH|]. by intros [= <- _].
Qed.

Lemma ltrim_fix x l : is_space x = false → ltrim (x :: l) = x :: l.
Proof. simpl. by intros ->. Qed.

Lemma ltrim_length l : length (ltrim l) ≤ length l.
Proof. apply sublist_length, ltrim_sublist. Qed.

Lemma rtrim_length l : length (rtrim l) ≤ length l.
Proof. apply sublist_length, rtrim_sublist. Qed.

Lemma ltrim_full l : length (ltrim l) = length l → ltrim l = l.
Proof.
  destruct l as [|x l]; simpl; [done|].
  destruct (is_space x); [|done]. pose proof (ltrim_length l). lia.
Qed.

Lemma rtrim_cons x l :
  rtrim (x :: l) = match rtrim l with
                   | [] => if is_space x then [] else [x]
                   | r => x :: r
                   end.
Proof. reflexivity. Qed.

Lemma rtrim_full l : length (rtrim l) = length l → rtrim l = l.
Proof.
  induction l as [|x l IH]; [done|]. rewrite rtrim_cons.
  pose proof (rtrim_length l) as Hlen.
  destruct (rtrim l) as [|y r] eqn:Hr.
  - destruct (is_space x); simpl; [lia|]. intros Hl. simpl in *.
    destruct l; [done|]. simpl in *. lia.
  - intros Hl. f_equal. apply IH. simpl in *. lia.
Qed.

Lemma rtrim_head x l : is_space x = false → ∃ r, rtrim (x :: l) = x :: r.
Proof. intros Hx. rewrite rtrim_cons. destruct (rtrim l); rewrite ?Hx; eauto. Qed.

Lemma rtrim_idem l : rtrim (rtrim l) = rtrim l.
Proof.
  induction l as [|x l IH]; [done|]. rewrite rtrim_cons.
  destruct (rtrim l) as [|y r] eqn:Hr.
  - destruct (is_space x) eqn:Hx; [done|]. rewrite rtrim_cons. simpl. by rewrite Hx.
  - rewrite rtrim_cons, IH. done.
Qed.

Lemma ltrim_nil l : ltrim l = [] → Forall (λ x, is_space x = true) l.
Proof.
  induction l as [|x l IH]; simpl; [done|].
  destruct (is_space x) eqn:Hx; [|done]. intros H. constructor; auto.
Qed.

Lemma ltrim_blank l : Forall (λ x, is_space x = true) l → ltrim l = [].
Proof. induction 1 as [|x l Hx _ IH]; simpl; [done|]. by rewrite Hx. Qed.

Lemma trim_nil l : rtrim (ltrim l) = [] ↔ Forall (λ x, is_space x = true) l.
Proof.
  split.
  - intros H. apply ltrim_nil. destruct (ltrim l) as [|x r] eqn:Hl; [done|].
    pose proof (ltrim_head _ _ _ Hl) as Hx.
    destruct (rtrim_head x r Hx) as [r' Hr]. congruence.
  - intros H. by rewrite ltrim_blank.
Qed.

Lemma trim_fix l : rtrim (ltrim l) = l → ltrim l = l ∧ rtrim l = l.
Proof.
  intros H. pose proof (ltrim_length l). pose proof (rtrim_length (ltrim l)).
  assert (ltrim l = l) as Hl by (apply ltrim_full; rewrite H in *; lia).
  by rewrite Hl in H.
Qed.

Lemma ltrim_rtrim l : ltrim l = l → ltrim (rtrim l) = rtrim l.
Proof.
  destruct l as [|x l]; [done|]. intros Hl.
  pose proof (ltrim_head _ _ _ Hl) as Hx.
  destruct (rtrim_head x l Hx) as [r ->]. by apply ltrim_fix.
Qed.

Lemma ltrim_idem l : ltrim (ltrim l) = ltrim l.
Proof.
  destruct (ltrim l) as [|x r] eqn:Hl; [done|].
  apply ltrim_fix, (ltrim_head _ _ _ Hl).
Qed.

Lemma trim_idem l : rtrim (ltrim (rtrim (ltrim l))) = rtrim (ltrim l).
Proof. by rewrite (ltrim_rtrim _ (ltrim_idem l)), rtrim_idem. Qed.

Lemma rtrim_app l1 l2 : l2 ≠ [] → rtrim l2 = l2 → rtrim (l1 ++ l2) = l1 ++ l2.
Proof.
  intros Hne Hr. induction l1 as [|x l1 IH]; [done|].
  rewrite <- app_comm_cons, rtrim_cons, IH. by destruct (l1 ++ l2) eqn:?, l1.
Qed.

Lemma rtrim_snoc_space l w : is_space w = true → rtrim (l ++ [w]) = rtrim l.
Proof.
  intros Hw. induction l as [|x l IH]; simpl; [by rewrite Hw|]. by rewrite IH.
Qed.

(** *** Whitespace characters *)

Ltac space_cases H :=
  apply bool_decide_eq_true in H; vm_compute in H;
  repeat (apply elem_of_cons in H as [-> | H]); [..|by apply elem_of_nil in H].

Lemma space_group w : is_space w = true → group w ∧ starts_inside w = false.
Proof. intros H. space_cases H; by vm_compute. Qed.

Lemma space_split w : is_space w = true → split ";" w = [w].
Proof. intros H. space_cases H; by vm_compute. Qed.

Lemma space_semicolon ch : is_space (String ";" ch) = false.
Proof.
  destruct (is_space _) eqn:H; [|done]. exfalso.
  apply bool_decide_eq_true in H. vm_compute in H.
  repeat (apply elem_of_cons in H as [Heq | H]; [discriminate Heq|]).
  by apply elem_of_nil in H.
Qed.

Lemma space_not_digit {E : Externals} w :
  (∀ ch, is_space ch = true → decimal ch = false) →
  is_space w = true → is_digit w = false.
Proof.
  intros Hd H. pose proof (Hd w H) as Hw. unfold is_digit. rewrite Hw.
  clear Hw Hd. space_cases H; by vm_compute.
Qed.

(** *** Trimming a string *)

Lemma chars_strip s : chars (strip s) = rtrim (ltrim (chars s)).
Proof.
  unfold strip. apply chars_join.
  eapply wf_chars_sublist; [|apply chars_wf].
  etrans; [apply rtrim_sublist|apply ltrim_sublist].
Qed.

Lemma strip_idem s : strip (strip s) = strip s.
Proof. unfold strip at 1. by rewrite chars_strip, trim_idem. Qed.

Lemma strip_fix s :
  strip s = s → ltrim (chars s) = chars s ∧ rtrim (chars s) = chars s.
Proof. intros H. apply trim_fix. by rewrite <- chars_strip, H. Qed.

Lemma strip_empty s : strip s = "" ↔ Forall (λ x, is_space x = true) (chars s).
Proof.
  rewrite <- trim_nil. split.
  - intros H. by rewrite <- chars_strip, H.
  - unfold strip. by intros ->.
Qed.

(** Joining two trimmed, non-empty values with a semicolon gives a trimmed
    value. *)
Lemma strip_join a b :
  a ≠ "" → strip a = a → b ≠ "" → strip b = b →
  strip (a +:+ ";" +:+ b) = a +:+ ";" +:+ b.
Proof.
  intros Ha Hsa Hb Hsb.
  apply strip_fix in Hsa as [Hla Hra], Hsb as [Hlb Hrb].
  assert (rtrim (ltrim (chars (a +:+ ";" +:+ b))) = chars (a +:+ ";" +:+ b)) as H.
  { rewrite chars_app by done.
    destruct (chars a) as [|x la] eqn:Hca; [by apply chars_nil in Hca|].
    pose proof (ltrim_head _ _ _ Hla) as Hx.
    rewrite <- app_comm_cons, (ltrim_fix _ _ Hx), app_comm_cons.
    apply rtrim_app.
    - change (";" +:+ b) with (String ";" b). rewrite chars_cons.
      by destruct (starts_inside b), (chars b).
    - change (";" +:+ b) with (String ";" b). rewrite chars_cons.
      destruct (chars b) as [|y lb] eqn:Hcb; [by apply chars_nil in Hcb|].
      destruct (starts_inside b).
      + simpl glue. rewrite rtrim_cons in Hrb |- *.
        destruct (rtrim lb) as [|z r] eqn:Hr.
        * rewrite space_semicolon. destruct (is_space y); [done|].
          by injection Hrb as <-.
        * by injection Hrb as <-.
      + rewrite rtrim_cons, Hrb. done. }
  unfold strip. by rewrite H, join_chars.
Qed.

(** *** Splitting *)

Lemma split_not_nil sep s : split sep s ≠ [].
Proof.
  destruct s as [|c s]; simpl; [done|].
  destruct (Ascii.eqb c sep); [done|]. by destruct (split sep s).
Qed.

Lemma split_app sep a b :
  split sep (a +:+ String sep b) = split sep a ++ split sep b.
Proof.
  induction a as [|c a IH]; [rewrite append_nil_l|rewrite append_cons]; simpl.
  - by rewrite Ascii.eqb_refl.
  - rewrite IH. destruct (Ascii.eqb c sep); [done|].
    destruct (split sep a) eqn:Ha; [by apply split_not_nil in Ha|done].
Qed.

(** A sub-value holds no separator. *)
Lemma split_token sep s t : t ∈ split sep s → split sep t = [t].
Proof.
  revert t. induction s as [|c s IH]; simpl; intros t Ht.
  - apply list_elem_of_singleton in Ht as ->. done.
  - destruct (Ascii.eqb c sep) eqn:Hc.
    + apply elem_of_cons in Ht as [->|Ht]; [done|by apply IH].
    + destruct (split sep s) as [|u us] eqn:Hs.
      * apply list_elem_of_singleton in Ht as ->. simpl. by rewrite Hc.
      * apply elem_of_cons in Ht as [->|Ht].
        -- simpl. rewrite Hc, (IH u); [done|left].
        -- apply IH. by right.
Qed.

Lemma split_single sep s t : split sep s = [t] → s = t.
Proof.
  revert t. induction s as [|c s IH]; simpl; intros t.
  - by intros [= <-].
  - destruct (Ascii.eqb c sep).
    + intros [= _ H]. by apply split_not_nil in H.
    + destruct (split sep s) as [|u us] eqn:Hs; [by apply split_not_nil in Hs|].
      intros [= <- ->]. by rewrite (IH u).
Qed.

Lemma split_cons sep c s :
  split sep (String c s)
  = if Ascii.eqb c sep then "" :: split sep s
    else match split sep s with
         | [] => [String c ""]
         | t :: ts => String c t :: ts
         end.
Proof. reflexivity. Qed.

(** A piece without separator in front of a string joins its first
    sub-value ... *)
Lemma split_prefix sep w s :
  split sep w = [w] →
  ∃ f r, split sep s = f :: r ∧ split sep (w +:+ s) = (w +:+ f) :: r.
Proof.
  induction w as [|c w IH]; intros Hw.
  - destruct (split sep s) as [|f r] eqn:Hs; [by apply split_not_nil in Hs|].
    exists f, r. by rewrite !append_nil_l.
  - rewrite split_cons in Hw. destruct (Ascii.eqb c sep) eqn:Hc.
    { by injection Hw. }
    destruct (split sep w) as [|u us] eqn:Hu; [by apply split_not_nil in Hu|].
    injection Hw as -> ->. destruct IH as (f & r & Hs & Hws); [done|].
    exists f, r. split; [done|]. by rewrite append_cons, split_cons, Hc, Hws.
Qed.

(** ... and behind a string, its last one. *)
Lemma split_suffix sep s w :
  split sep w = [w] →
  ∃ init last, split sep s = init ++ [last]
               ∧ split sep (s +:+ w) = init ++ [last +:+ w].
Proof.
  intros Hw. induction s as [|c s (init & last & Hs & Hsw)].
  { exists [], "". by rewrite append_nil_l. }
  rewrite append_cons, !split_cons, Hs, Hsw. destruct (Ascii.eqb c sep).
  - by exists ("" :: init), last.
  - destruct init as [|i0 init]; simpl.
    + by exists [], (String c last).
    + by exists (String c i0 :: init), last.
Qed.

Lemma split_head_inside sep s f r :
  split sep s = f :: r → starts_inside s = false → starts_inside f = false.
Proof.
  destruct s as [|c s]; [by intros [= <- _]|]. rewrite split_cons.
  destruct (Ascii.eqb c sep); [by intros [= <- _]|].
  destruct (split sep s); by intros [= <- _].
Qed.

Lemma split_drop_space_l w s t :
  is_space w = true → starts_inside s = false →
  t ∈ split ";" (w +:+ s) → ltrim (chars t) = chars t → t ∈ split ";" s.
Proof.
  intros Hw Hs Ht Hl.
  destruct (split_prefix ";" w s (space_split w Hw)) as (f & r & Hf & Hwf).
  rewrite Hwf in Ht. rewrite Hf. apply elem_of_cons in Ht as [->|Ht]; [|by right].
  exfalso. rewrite chars_app in Hl by by eapply split_head_inside.
  destruct (space_group w Hw) as [Hg _]. rewrite (chars_of_group w Hg) in Hl.
  simpl in Hl. rewrite Hw in Hl.
  pose proof (ltrim_length (chars f)) as Hlen. rewrite Hl in Hlen. simpl in Hlen. lia.
Qed.

Lemma split_drop_space_r w s t :
  is_space w = true →
  t ∈ split ";" (s +:+ w) → rtrim (chars t) = chars t → t ∈ split ";" s.
Proof.
  intros Hw Ht Hr.
  destruct (split_suffix ";" s w (space_split w Hw)) as (init & last & Hs & Hsw).
  rewrite Hsw in Ht. rewrite Hs.
  apply elem_of_app in Ht as [Ht|Ht]; apply elem_of_app; [by left|].
  apply list_elem_of_singleton in Ht as ->. exfalso.
  destruct (space_group w Hw) as [Hg Hi].
  rewrite chars_app, (chars_of_group w Hg), rtrim_snoc_space in Hr by done.
  pose proof (rtrim_length (chars last)) as Hlen. rewrite Hr in Hlen.
  rewrite length_app in Hlen. simpl in Hlen. lia.
Qed.

Lemma split_ltrim l t :
  wf_chars l → t ∈ split ";" (join l) → ltrim (chars t) = chars t →
  t ∈ split ";" (join (ltrim l)).
Proof.
  intros Hwf Ht Hl. induction l as [|w l IH]; [done|]. simpl.
  destruct (is_space w) eqn:Hw; [|done].
  apply IH; [by eapply wf_chars_tail|].
  rewrite join_cons in Ht.
  eapply split_drop_space_l; [done|by eapply wf_chars_join_inside|done|done].
Qed.

Lemma split_rtrim l p t :
  t ∈ split ";" (p +:+ join l) → rtrim (chars t) = chars t →
  t ∈ split ";" (p +:+ join (rtrim l)).
Proof.
  intros Ht Hr. revert p Ht. induction l as [|x l IH]; intros p Ht; [done|].
  rewrite join_cons, <- append_assoc in Ht. apply IH in Ht.
  rewrite rtrim_cons. destruct (rtrim l) as [|y r] eqn:Hrl.
  - rewrite join_nil, append_nil_r in Ht.
    destruct (is_space x) eqn:Hx.
    + rewrite join_nil, append_nil_r. by eapply split_drop_space_r.
    + by rewrite join_cons, join_nil, append_nil_r.
  - by rewrite join_cons, <- append_assoc.
Qed.

(** A trimmed sub-value of a field value is a sub-value of the trimmed field
    value. *)
Lemma split_strip s t :
  t ∈ split ";" s → strip t = t → t ∈ split ";" (strip s).
Proof.
  intros Ht [Hl Hr]%strip_fix. unfold strip.
  rewrite <- (append_nil_l (join _)). apply split_rtrim; [|done].
  rewrite append_nil_l. apply split_ltrim; [apply chars_wf| |done].
  by rewrite join_chars.
Qed.

(** *** Digits and letter case *)

Section Unicode.

Context {E : Externals}.


(** A sub-value that holds a digit is not blank. *)
Lemma digits_strip s :
  (∀ ch, is_space ch = true → decimal ch = false) →
  digits s ≠ "" → strip s ≠ "".
Proof.
  intros Hd H Hs. apply H. apply strip_empty in Hs.
  unfold digits. induction Hs as [|w l Hw _ IH]; [done|].
  rewrite filter_cons_False; [done|]. by rewrite (space_not_digit w Hd Hw).
Qed.

Lemma lower_ascii_empty s : lower_ascii s = "" → s = "".
Proof. by destruct s. Qed.

Lemma lower_not_empty s :
  (∀ x, x ≠ "" → unicode_lower x ≠ "") → s ≠ "" → lower s ≠ "".
Proof.
  intros Hl Hs. unfold lower. destruct (is_ascii s); [|by apply Hl].
  intros H. by apply lower_ascii_empty in H.
Qed.





End Unicode.

End StrFacts.

(** ** Records *)

Module DictFacts.

Lemma dict_get_set_eq k v r : dict_get k (dict_set k v r) = Some v.
Proof.
  induction r as [|[k' v'] r IH]; simpl.
  - by rewrite String.eqb_refl.
  - destruct (String.eqb_spec k' k) as [->|Hne]; simpl.
    + by rewrite String.eqb_refl.
    + by apply String.eqb_neq in Hne as ->.
Qed.

Lemma dict_get_set_ne k k' v r :
  k ≠ k' → dict_get k' (dict_set k v r) = dict_get k' r.
Proof.
  intros Hne. induction r as [|[k0 v0] r IH]; simpl.
  - by apply String.eqb_neq in Hne as ->.
  - destruct (String.eqb_spec k0 k) as [->|Hne0]; simpl.
    + by apply String.eqb_neq in Hne as ->.
    + by rewrite IH.
Qed.

Lemma dict_get_None k r : k ∉ r.*1 → dict_get k r = None.
Proof.
  induction r as [|[k0 v0] r IH]; simpl; [done|]. intros Hk.
  apply not_elem_of_cons in Hk as [Hne Hk].
  destruct (String.eqb_spec k0 k) as [->|_]; [done|by apply IH].
Qed.

Lemma field_value_set_eq k v r : field_value k (dict_set k v r) = v.
Proof. unfold field_value. by rewrite dict_get_set_eq. Qed.

Lemma field_value_ext k r r' :
  dict_get k r = dict_get k r' → field_value k r = field_value k r'.
Proof. unfold field_value. by intros ->. Qed.

End DictFacts.

(** ** Field merger *)

Module MergeFacts.
Import Str StrFacts DictFacts.

(** What one loop iteration does to the field it handles. *)
Lemma merge_field_get m k v :
  reserved k = false →
  dict_get k (merge_field m k v) =
    if negb (truthy (strip (field_value k m))) && truthy (strip v)
    then Some (strip v)
    else if truthy (strip v)
            && negb (bool_decide (strip v ∈ split ";" (strip (field_value k m))))
    then Some (strip (field_value k m) +:+ ";" +:+ strip v)
    else dict_get k m.
Proof.
  intros Hk. unfold merge_field. rewrite Hk. cbv zeta.
  destruct (truthy (strip (field_value k m))) eqn:Hm; simpl.
  - destruct (truthy (strip v) && _); [apply dict_get_set_eq|done].
  - destruct (truthy (strip v)); simpl; [apply dict_get_set_eq|done].
Qed.

(** ... and that it leaves every other field alone. *)
Lemma merge_field_get_ne m k v k' :
  k ≠ k' → dict_get k' (merge_field m k v) = dict_get k' m.
Proof.
  intros Hne. unfold merge_field.
  repeat (case_match; try done); by apply dict_get_set_ne.
Qed.

Lemma merge_field_reserved m k v : reserved k = true → merge_field m k v = m.
Proof. unfold merge_field. by intros ->. Qed.

Lemma merge_field_get_ext m m' k v :
  dict_get k m = dict_get k m' →
  dict_get k (merge_field m k v) = dict_get k (merge_field m' k v).
Proof.
  intros H. destruct (reserved k) eqn:Hk.
  - by rewrite !merge_field_reserved.
  - rewrite !merge_field_get by done.
    by rewrite (field_value_ext _ _ _ H), H.
Qed.

Lemma merge_contacts_cons m k v dup :
  merge_contacts m ((k, v) :: dup) = merge_contacts (merge_field m k v) dup.
Proof. reflexivity. Qed.

Lemma merge_contacts_get_absent m dup k :
  k ∉ dup.*1 → dict_get k (merge_contacts m dup) = dict_get k m.
Proof.
  revert m. induction dup as [|[k0 v0] dup IH]; intros m Hk; [done|].
  apply not_elem_of_cons in Hk as [Hne Hk].
  rewrite merge_contacts_cons, IH by done. by apply merge_field_get_ne.
Qed.

(** On a dictionary, the loop handles each field once: the field [k] of the
    result is what the iteration for [k] makes of the master. *)
Lemma merge_contacts_get m dup k v :
  wf_record dup → dict_get k dup = Some v →
  dict_get k (merge_contacts m dup) = dict_get k (merge_field m k v).
Proof.
  unfold wf_record. revert m.
  induction dup as [|[k0 v0] dup IH]; intros m Hwf Hget; [done|].
  simpl in Hwf, Hget. apply NoDup_cons in Hwf as [Hk0 Hwf].
  rewrite merge_contacts_cons.
  destruct (String.eqb_spec k0 k) as [->|Hne].
  - injection Hget as ->. by apply merge_contacts_get_absent.
  - rewrite (IH _ Hwf Hget). apply merge_field_get_ext.
    by apply merge_field_get_ne.
Qed.

Lemma merge_contacts_field_absent m dup k :
  dict_get k dup = None → wf_record dup →
  dict_get k (merge_contacts m dup) = dict_get k m.
Proof.
  revert m. induction dup as [|[k0 v0] dup IH]; intros m Hget Hwf; [done|].
  simpl in Hget. apply NoDup_cons in Hwf as [_ Hwf].
  destruct (String.eqb_spec k0 k) as [->|Hne]; [done|].
  rewrite merge_contacts_cons, IH by done. by apply merge_field_get_ne.
Qed.

End MergeFacts.

Module MergeClaims.
Import Str StrFacts DictFacts MergeFacts.

(** The three outcomes of a merge for a field that the duplicate carries. *)
Lemma merge_contacts_field m dup k v :
  reserved k = false → wf_record dup → dict_get k dup = Some v →
  (strip (field_value k m) = "" ∧ strip v ≠ ""
   ∧ dict_get k (merge_contacts m dup) = Some (strip v))
  ∨ (strip (field_value k m) ≠ "" ∧ strip v ≠ ""
     ∧ (strip v ∉ field_tokens k m)
     ∧ dict_get k (merge_contacts m dup)
       = Some (strip (field_value k m) +:+ ";" +:+ strip v))
  ∨ ((strip v = "" ∨ (strip (field_value k m) ≠ "" ∧ strip v ∈ field_tokens k m))
     ∧ dict_get k (merge_contacts m dup) = dict_get k m).
Proof.
  intros Hk Hwf Hget. rewrite (merge_contacts_get m dup k v Hwf Hget).
  rewrite (merge_field_get m k v Hk). unfold field_tokens.
  destruct (truthy (strip (field_value k m))) eqn:Hm;
    destruct (truthy (strip v)) eqn:Hv; simpl.
  - apply truthy_true in Hm, Hv. case_bool_decide; simpl.
    + right; right. split; [right|]; done.
    + right; left. done.
  - apply truthy_false in Hv. right; right. split; [by left|done].
  - apply truthy_false in Hm. apply truthy_true in Hv. by left.
  - apply truthy_false in Hv. right; right. split; [by left|done].
Qed.

Lemma field_tokens_ext k m m' :
  dict_get k m = dict_get k m' → field_tokens k m = field_tokens k m'.
Proof. unfold field_tokens. intros H. by rewrite (field_value_ext _ _ _ H). Qed.

Lemma field_value_Some k m v : dict_get k m = Some v → field_value k m = v.
Proof. unfold field_value. by intros ->. Qed.

Lemma join_not_empty a b : a +:+ ";" +:+ b ≠ "".
Proof. intros H. apply append_empty in H as [_ H]. discriminate. Qed.

(** One merge keeps the sub-values of the master and adds those of the
    duplicate. *)
Lemma merge_tokens_step m dup k :
  reserved k = false → wf_record dup →
  (strip (field_value k m) ≠ "" →
     field_tokens k m ⊆ field_tokens k (merge_contacts m dup)
     ∧ strip (field_value k (merge_contacts m dup)) ≠ "")
  ∧ (∀ v, dict_get k dup = Some v → strip v ≠ "" →
     split ";" (strip v) ⊆ field_tokens k (merge_contacts m dup)
     ∧ strip (field_value k (merge_contacts m dup)) ≠ "").
Proof.
  intros Hk Hwf. destruct (dict_get k dup) as [v|] eqn:Hget.
  - destruct (merge_contacts_field m dup k v Hk Hwf Hget)
      as [(Hm & Hv & Hr)|[(Hm & Hv & Hnin & Hr)|(Hc & Hr)]].
    + split; [done|]. intros ? [= <-] _.
      unfold field_tokens. rewrite (field_value_Some _ _ _ Hr), strip_idem. done.
    + assert (field_tokens k (merge_contacts m dup)
              = field_tokens k m ++ split ";" (strip v)) as Htok.
      { unfold field_tokens at 1. rewrite (field_value_Some _ _ _ Hr).
        rewrite strip_join; [apply split_app|done|apply strip_idem|done|apply strip_idem]. }
      assert (strip (field_value k (merge_contacts m dup)) ≠ "") as Hne.
      { rewrite (field_value_Some _ _ _ Hr).
        rewrite strip_join; [apply join_not_empty|done|apply strip_idem|done|apply strip_idem]. }
      rewrite Htok. split.
      * intros _. split; [|done]. intros t Ht. apply elem_of_app. by left.
      * intros ? [= <-] _. split; [|done]. intros t Ht. apply elem_of_app. by right.
    + rewrite (field_tokens_ext _ _ _ Hr), (field_value_ext _ _ _ Hr). split; [done|].
      intros ? [= <-] Hv. destruct Hc as [?|[Hm Hin]]; [done|]. split; [|done].
      rewrite (split_token _ _ _ Hin). intros t Ht.
      by apply list_elem_of_singleton in Ht as ->.
  - pose proof (merge_contacts_field_absent m dup k Hget Hwf) as Hr.
    rewrite (field_tokens_ext _ _ _ Hr), (field_value_ext _ _ _ Hr).
    split; [done|]. intros ? [=].
Qed.

Lemma merge_tokens_fold dups m k :
  reserved k = false → Forall wf_record dups →
  (strip (field_value k m) ≠ "" →
     field_tokens k m ⊆ field_tokens k (fold_left merge_contacts dups m)
     ∧ strip (field_value k (fold_left merge_contacts dups m)) ≠ "")
  ∧ (∀ d v, d ∈ dups → dict_get k d = Some v → strip v ≠ "" →
     split ";" (strip v) ⊆ field_tokens k (fold_left merge_contacts dups m)).
Proof.
  intros Hk Hwf. revert m. induction Hwf as [|d ds Hd Hds IH]; intros m; simpl.
  { split; [done|]. intros d v Hin. by apply elem_of_nil in Hin. }
  destruct (merge_tokens_step m d k Hk Hd) as [Hm Hdup].
  destruct (IH (merge_contacts m d)) as [IHm IHd]. split.
  - intros Hne. destruct (Hm Hne) as [Hsub Hne']. destruct (IHm Hne') as [Hsub' ?].
    split; [|done]. by etrans.
  - intros d' v Hin Hget Hv. apply elem_of_cons in Hin as [->|Hin].
    + destruct (Hdup v Hget Hv) as [Hsub Hne']. destruct (IHm Hne') as [Hsub' _].
      by etrans.
    + by eapply IHd.
Qed.

(** C5, as stated, fails in two ways: the reserved field [uid] is skipped, so
    the master's [uid] does not take up the duplicate's; and values are trimmed
    before they are stored, so the sub-value [" x"] of the duplicate is not a
    sub-value of the merged master, which holds ["x"]. *)
Lemma merge_superset_counterexample :
  dict_get "uid" (merge_contacts [("uid", "0"); ("note", "a")]
                                 [("uid", "1"); ("note", " x")]) = Some "0"
  ∧ dict_get "note" (merge_contacts [("uid", "0"); ("note", "a")]
                                    [("uid", "1"); ("note", " x")]) = Some "a;x"
  ∧ " x" ∈ split ";" (field_value "note" [("uid", "1"); ("note", " x")])
  ∧ " x" ∉ split ";" (field_value "note"
             (merge_contacts [("uid", "0"); ("note", "a")]
                             [("uid", "1"); ("note", " x")])).
Proof.
  split; [reflexivity|]. split; [reflexivity|]. split.
  - vm_compute. left.
  - vm_compute. intros H.
    apply elem_of_cons in H as [H|H]; [discriminate|].
    apply list_elem_of_singleton in H. discriminate.
Qed.

(** C5 (amended): after any sequence of merges into a master, for every field
    other than [uid], [match] and [certainty], the sub-values of the master's
    trimmed value contain the sub-values of the trimmed non-blank value of
    each merged record, and those of the master's own trimmed non-blank value;
    and one merge of a duplicate whose sub-values are disjoint from the
    master's yields the master's sub-values followed by the duplicate's. *)
Theorem merge_keeps_sub_values (master : record) (dups : list record) (key : string) :
  reserved key = false → Forall wf_record dups →
  (strip (field_value key master) ≠ "" →
     field_tokens key master ⊆ field_tokens key (fold_left merge_contacts dups master))
  ∧ (∀ d v, d ∈ dups → dict_get key d = Some v → strip v ≠ "" →
       split ";" (strip v) ⊆ field_tokens key (fold_left merge_contacts dups master))
  ∧ (∀ d v, wf_record d → dict_get key d = Some v →
       strip (field_value key master) ≠ "" → strip v ≠ "" →
       (∀ t, t ∈ split ";" (strip v) → t ∉ field_tokens key master) →
       field_tokens key (merge_contacts master d)
       = field_tokens key master ++ split ";" (strip v)).
Proof.
  intros Hk Hwf. destruct (merge_tokens_fold dups master key Hk Hwf) as [Hm Hd].
  split; [intros Hne; by apply Hm|]. split; [exact Hd|].
  intros d v Hwfd Hget Hm' Hv Hdisj.
  destruct (merge_contacts_field master d key v Hk Hwfd Hget)
    as [(? & _)|[(_ & _ & _ & Hr)|([?|[_ Hin]] & _)]]; [done| |done|].
  - unfold field_tokens at 1. rewrite (field_value_Some _ _ _ Hr).
    rewrite strip_join; [apply split_app|done|apply strip_idem|done|apply strip_idem].
  - exfalso. apply (Hdisj (strip v)); [|done].
    rewrite (split_token _ _ _ Hin). left.
Qed.

Lemma merge_keeps_sub_values_witness :
  ["x"; "y"] ⊆ field_tokens "note"
    (fold_left merge_contacts
       [[("uid", "1"); ("note", utf8 0xA0 +:+ "x;y" +:+ utf8 0x2003 +:+ " ")];
        [("uid", "2"); ("note", "a")]]
       [("uid", "0"); ("note", "a")]).
Proof.
  apply (proj1 (proj2 (merge_keeps_sub_values
           [("uid", "0"); ("note", "a")]
           [[("uid", "1"); ("note", utf8 0xA0 +:+ "x;y" +:+ utf8 0x2003 +:+ " ")];
            [("uid", "2"); ("note", "a")]]
           "note" eq_refl ltac:(by_evaluation)))
         [("uid", "1"); ("note", utf8 0xA0 +:+ "x;y" +:+ utf8 0x2003 +:+ " ")]
         (utf8 0xA0 +:+ "x;y" +:+ utf8 0x2003 +:+ " ")).
  - left.
  - reflexivity.
  - vm_compute. discriminate.
Defined.

(** C6, as stated, fails: the value copied into an empty master field is the
    duplicate's value without its leading and trailing whitespace. *)
Lemma merge_copy_counterexample :
  field_value "note" [("uid", "0")] = ""
  ∧ dict_get "note" (merge_contacts [("uid", "0")] [("uid", "1"); ("note", " hi ")])
    = Some "hi"
  ∧ dict_get "note" (merge_contacts [("uid", "0")] [("uid", "1"); ("note", " hi ")])
    ≠ Some " hi ".
Proof. split; [reflexivity|]. split; [reflexivity|]. vm_compute. discriminate. Qed.

(** C6 (amended): for every field of the duplicate other than [uid], [match]
    and [certainty], if the master's current value for that field is absent,
    empty or blank, then the duplicate's value without its leading and
    trailing whitespace becomes the master's value when it is non-empty (so a
    non-empty value without surrounding whitespace is copied character for
    character), and a blank value of the duplicate leaves the master's field
    as it was. *)
Theorem merge_copies_trimmed_value (master duplicate : record) (key value : string) :
  wf_record duplicate → dict_get key duplicate = Some value →
  reserved key = false → strip (field_value key master) = "" →
  (strip value ≠ "" →
     dict_get key (merge_contacts master duplicate) = Some (strip value))
  ∧ (value ≠ "" → strip value = value →
     dict_get key (merge_contacts master duplicate) = Some value)
  ∧ (strip value = "" →
     dict_get key (merge_contacts master duplicate) = dict_get key master).
Proof.
  intros Hwf Hget Hk Hm.
  destruct (merge_contacts_field master duplicate key value Hk Hwf Hget)
    as [(_ & Hv & Hr)|[(? & _)|([Hv|[? _]] & Hr)]]; try done.
  - split; [done|]. split; [intros _ Hfix; by rewrite Hr, Hfix|done].
  - split; [done|]. split; [|done]. intros Hne Hfix. congruence.
Qed.

Lemma merge_copies_trimmed_value_witness :
  dict_get "note"
    (merge_contacts [("uid", "0")]
       [("uid", "1"); ("note", utf8 0xA0 +:+ " hi" +:+ utf8 0x3000)])
  = Some (strip (utf8 0xA0 +:+ " hi" +:+ utf8 0x3000))
  ∧ strip (utf8 0xA0 +:+ " hi" +:+ utf8 0x3000) = "hi".
Proof.
  split; [|by vm_compute].
  apply (merge_copies_trimmed_value [("uid", "0")]
           [("uid", "1"); ("note", utf8 0xA0 +:+ " hi" +:+ utf8 0x3000)]
           "note" (utf8 0xA0 +:+ " hi" +:+ utf8 0x3000)
           ltac:(by_evaluation) eq_refl eq_refl eq_refl).
  vm_compute. discriminate.
Defined.

(** C7, as stated, fails: the duplicate's value [" x"] is exactly a sub-value
    of the master's ["a; x"], yet the merge appends the trimmed ["x"]. *)
Lemma merge_dedup_counterexample :
  " x" ∈ split ";" (field_value "note" [("uid", "0"); ("note", "a; x")])
  ∧ dict_get "note" (merge_contacts [("uid", "0"); ("note", "a; x")]
                                    [("uid", "1"); ("note", " x")])
    = Some "a; x;x".
Proof. split; [vm_compute; right; left|reflexivity]. Qed.

(** C7 (amended): if the duplicate's value for a field, without its leading
    and trailing whitespace, is one of the [;]-separated sub-values of the
    master's trimmed value for that field, then the merge leaves the master's
    value for that field unchanged; this covers every value without
    surrounding whitespace that is exactly one of the sub-values of the
    master's value. *)
Theorem merge_deduplicates (master duplicate : record) (key value : string) :
  wf_record duplicate → dict_get key duplicate = Some value →
  strip value ∈ field_tokens key master
  ∨ (strip value = value ∧ value ∈ split ";" (field_value key master)) →
  merge_field master key value = master
  ∧ dict_get key (merge_contacts master duplicate) = dict_get key master.
Proof.
  intros Hwf Hget Hin.
  assert (merge_field master key value = master) as Hstep.
  { unfold merge_field. destruct (reserved key); [done|]. cbv zeta.
    assert (strip value = "" ∨ strip value ∈ field_tokens key master) as Hin'.
    { destruct Hin as [?|[Hfix Hin]]; [by right|].
      destruct (decide (value = "")) as [->|Hne]; [by left|right].
      rewrite Hfix. by apply split_strip. }
    destruct Hin' as [->|Hin']; [by rewrite andb_false_r|].
    unfold field_tokens in Hin'. rewrite (bool_decide_eq_true_2 _ Hin').
    rewrite andb_false_r.
    destruct (truthy (strip (field_value key master))) eqn:Hm; simpl; [done|].
    apply truthy_false in Hm. rewrite Hm in Hin'.
    apply list_elem_of_singleton in Hin' as ->. done. }
  split; [done|].
  by rewrite (merge_contacts_get master duplicate key value Hwf Hget), Hstep.
Qed.

Lemma merge_deduplicates_witness :
  dict_get "tel" (merge_contacts [("uid", "0"); ("tel", "555;777")]
                                 [("uid", "1"); ("tel", utf8 0x2003 +:+ "777")])
  = dict_get "tel" [("uid", "0"); ("tel", "555;777")].
Proof.
  apply (merge_deduplicates [("uid", "0"); ("tel", "555;777")]
           [("uid", "1"); ("tel", utf8 0x2003 +:+ "777")] "tel"
           (utf8 0x2003 +:+ "777") ltac:(by_evaluation) eq_refl).
  left. vm_compute. right; left.
Defined.

End MergeClaims.

(** ** Similarity scorer *)

Module ScoreFacts.
Import Str StrFacts DictFacts.

Local Open Scope Q_scope.

Lemma fold_max_spec l x :
  (fold_left pick_max l x = x ∨ fold_left pick_max l x ∈ l)
  ∧ x <= fold_left pick_max l x
  ∧ ∀ y, y ∈ l → y <= fold_left pick_max l x.
Proof.
  revert x. induction l as [|y l IH]; intros x; simpl.
  { split; [by left|]. split; [apply Qle_refl|]. intros y Hy. by apply elem_of_nil in Hy. }
  destruct (IH (pick_max x y)) as (Hin & Hle & Hall).
  assert (x <= pick_max x y ∧ y <= pick_max x y) as [Hx Hy].
  { unfold pick_max. destruct (Qle_bool y x) eqn:Hb.
    - apply Qle_bool_iff in Hb. split; [apply Qle_refl|done].
    - split; [|apply Qle_refl]. apply Qlt_le_weak, Qnot_le_lt.
      intros H. apply Qle_bool_iff in H. congruence. }
  split; [|split].
  - destruct Hin as [->|Hin]; [|right; by right].
    unfold pick_max. destruct (Qle_bool y x); [by left|right; left].
  - by eapply Qle_trans.
  - intros z Hz. apply elem_of_cons in Hz as [->|Hz]; [by eapply Qle_trans|by apply Hall].
Qed.

Lemma py_max_Some l m :
  py_max l = Some m → m ∈ l ∧ ∀ y, y ∈ l → y <= m.
Proof.
  destruct l as [|x l]; simpl; [done|]. intros [= <-].
  destruct (fold_max_spec l x) as (Hin & Hle & Hall). split.
  - destruct Hin as [->|Hin]; [left|by right].
  - intros y Hy. apply elem_of_cons in Hy as [->|Hy]; [done|by apply Hall].
Qed.

Lemma py_max_None l : py_max l = None → l = [].
Proof. by destruct l. Qed.

Lemma py_max_is_Some l x : x ∈ l → is_Some (py_max l).
Proof. destruct l; [by intros ?%elem_of_nil|simpl; eauto]. Qed.

Lemma elem_of_pair_scores sim xs ys q :
  q ∈ pair_scores sim xs ys ↔
  ∃ x y, x ∈ xs ∧ y ∈ ys ∧ x ≠ "" ∧ y ≠ "" ∧ q = sim x y.
Proof.
  unfold pair_scores. rewrite list_elem_of_bind. split.
  - intros (x & Hq & Hx). apply list_elem_of_bind in Hq as (y & Hq & Hy).
    destruct (truthy x) eqn:Tx, (truthy y) eqn:Ty; simpl in Hq;
      try by apply elem_of_nil in Hq.
    apply list_elem_of_singleton in Hq. apply truthy_true in Tx, Ty. naive_solver.
  - intros (x & y & Hx & Hy & Tx & Ty & ->). exists x. split; [|done].
    apply list_elem_of_bind. exists y. split; [|done].
    apply truthy_true in Tx, Ty. rewrite Tx, Ty. left.
Qed.

(** Two lists with the same values have the same maximum. *)
Lemma py_max_equiv l1 l2 :
  (∀ x, x ∈ l1 → ∃ y, y ∈ l2 ∧ x == y) →
  (∀ y, y ∈ l2 → ∃ x, x ∈ l1 ∧ y == x) →
  option_Forall2 Qeq (py_max l1) (py_max l2).
Proof.
  intros H12 H21.
  destruct (py_max l1) as [m1|] eqn:E1, (py_max l2) as [m2|] eqn:E2.
  - constructor. apply py_max_Some in E1 as [Hin1 Hub1], E2 as [Hin2 Hub2].
    destruct (H12 _ Hin1) as (y & Hy & Hxy). destruct (H21 _ Hin2) as (x & Hx & Hyx).
    apply Qle_antisym.
    + rewrite Hxy. by apply Hub2.
    + rewrite Hyx. by apply Hub1.
  - apply py_max_None in E2 as ->. apply py_max_Some in E1 as [Hin _].
    destruct (H12 _ Hin) as (? & []%elem_of_nil & _).
  - apply py_max_None in E1 as ->. apply py_max_Some in E2 as [Hin _].
    destruct (H21 _ Hin) as (? & []%elem_of_nil & _).
  - constructor.
Qed.

Lemma py_sum_acc l acc : fold_left Qplus l acc == acc + py_sum l.
Proof.
  unfold py_sum. revert acc. induction l as [|x l IH]; intros acc; simpl.
  - by rewrite Qplus_0_r.
  - rewrite IH, (IH (0 + x)). rewrite Qplus_0_l. symmetry. apply Qplus_assoc.
Qed.

Lemma py_sum_cons x l : py_sum (x :: l) == x + py_sum l.
Proof. unfold py_sum at 1. simpl. rewrite py_sum_acc. by rewrite Qplus_0_l. Qed.

Lemma py_sum_equiv l1 l2 : Forall2 Qeq l1 l2 → py_sum l1 == py_sum l2.
Proof.
  induction 1 as [|x y l1 l2 Hxy _ IH]; [done|].
  by rewrite !py_sum_cons, Hxy, IH.
Qed.

Lemma count_nonzero n : ¬ inject_Z (Z.of_nat (S n)) == 0.
Proof. unfold Qeq. simpl. lia. Qed.

(** The mean of a non-empty list of equal values is that value. *)
Lemma py_sum_const l c :
  Forall (λ m, m == c) l → py_sum l == c * inject_Z (Z.of_nat (length l)).
Proof.
  induction 1 as [|x l Hx _ IH].
  - unfold py_sum. simpl. by rewrite Qmult_0_r.
  - rewrite py_sum_cons, Hx, IH.
    cbn [length]. rewrite Nat2Z.inj_succ, <- Z.add_1_r, inject_Z_plus. ring.
Qed.

Section Scorer.

Context {E : Externals}.


Lemma score_of_list a b :
  compute_match_score a b = match score_list a b with
              | [] => 0
              | scores => py_sum scores / inject_Z (Z.of_nat (length scores))
              end.
Proof. reflexivity. Qed.

Lemma score_equiv a b a' b' :
  Forall2 Qeq (score_list a b) (score_list a' b') → compute_match_score a b == compute_match_score a' b'.
Proof.
  rewrite !score_of_list.
  generalize (score_list a b) (score_list a' b'). intros l1 l2 H.
  pose proof (Forall2_length _ _ _ H) as Hlen. pose proof (py_sum_equiv _ _ H) as Hsum.
  destruct H as [|x y l1 l2 _ _]; [done|]. cbv beta iota zeta. by rewrite Hsum, Hlen.
Qed.

Lemma score_const a b c :
  score_list a b ≠ [] → Forall (λ m, m == c) (score_list a b) → compute_match_score a b == c.
Proof.
  rewrite score_of_list. generalize (score_list a b). intros l Hne Hall.
  pose proof (py_sum_const _ _ Hall) as Hsum.
  destruct l as [|x l]; [done|]. cbv beta iota zeta.
  rewrite Hsum. apply Qdiv_mult_l, count_nonzero.
Qed.

(** The score reads the fields [tel], [email] and [fn], and nothing else. *)
Lemma score_list_ext a b a' b' :
  (∀ k, k ∈ ["tel"; "email"; "fn"] → dict_get k a = dict_get k a') →
  (∀ k, k ∈ ["tel"; "email"; "fn"] → dict_get k b = dict_get k b') →
  score_list a b = score_list a' b'.
Proof.
  intros Ha Hb. unfold score_list, multi_score, name_score.
  rewrite <- !Ha, <- !Hb by in_list. done.
Qed.

Lemma score_ext a b a' b' :
  (∀ k, k ∈ ["tel"; "email"; "fn"] → dict_get k a = dict_get k a') →
  (∀ k, k ∈ ["tel"; "email"; "fn"] → dict_get k b = dict_get k b') →
  compute_match_score a b = compute_match_score a' b'.
Proof. intros Ha Hb. by rewrite !score_of_list, (score_list_ext a b a' b'). Qed.

Lemma multi_score_unshared sim norm k a b :
  populated k a && populated k b = false → multi_score sim norm k a b = [].
Proof.
  unfold populated, multi_score.
  destruct (dict_get k a), (dict_get k b); try done. by intros ->.
Qed.

Lemma name_score_unshared a b :
  populated "fn" a && populated "fn" b = false →
  name_score fuzz_token_set_ratio a b = [].
Proof.
  unfold populated, name_score.
  destruct (dict_get "fn" a), (dict_get "fn" b); try done. by intros ->.
Qed.

End Scorer.

End ScoreFacts.

(** ** The reference similarity functions meet the library's contract *)

Module SpecFuzzFacts.
Import Str StrFacts SpecFuzz.

Lemma lev_nil_r a : lev a "" = String.length a.
Proof. by destruct a. Qed.

Lemma lev_cons x a y b :
  lev (String x a) (String y b) =
  (S (lev a (String y b))) `min`
  ((S (lev (String x a) b)) `min` (lev a b + (if Ascii.eqb x y then 0 else 1))).
Proof. reflexivity. Qed.

Lemma lev_sym a b : lev a b = lev b a.
Proof.
  revert b. induction a as [|x a IHa]; intros b.
  { by rewrite lev_nil_r. }
  induction b as [|y b IHb]; [done|].
  rewrite !lev_cons, IHb, (IHa (String y b)), (IHa b), (Ascii.eqb_sym y x). lia.
Qed.

Lemma lev_refl a : lev a a = 0.
Proof.
  induction a as [|x a IH]; [done|].
  rewrite lev_cons, Ascii.eqb_refl, IH. lia.
Qed.

Local Open Scope Q_scope.

Lemma ratio_sym a b : ratio a b == ratio b a.
Proof. unfold ratio. by rewrite lev_sym, Nat.max_comm. Qed.

Lemma ratio_refl a : a ≠ "" → ratio a a == 100.
Proof.
  intros Ha. unfold ratio. rewrite lev_refl, Nat.max_id.
  destruct a as [|c a]; [done|]. simpl String.length. cbn [Nat.eqb].
  change (inject_Z (Z.of_nat 0)) with 0. unfold Qdiv. rewrite Qmult_0_l. ring.
Qed.

Lemma ratio_le_100 a b : ratio a b <= 100.
Proof.
  unfold ratio. destruct (Nat.eqb_spec (String.length a `max` String.length b) 0) as [|Hm].
  { apply Qle_refl. }
  assert (0 <= inject_Z (Z.of_nat (lev a b))
               / inject_Z (Z.of_nat (String.length a `max` String.length b))) as H.
  { apply Qle_shift_div_l.
    - unfold Qlt. simpl. lia.
    - rewrite Qmult_0_l. unfold Qle. simpl. lia. }
  lra.
Qed.

Lemma words_aux_not_nil cur l :
  Forall group l → cur ≠ "" ∨ ltrim l ≠ [] → words_aux cur l ≠ [].
Proof.
  intros Hg. revert cur. induction Hg as [|ch l Hch _ IH]; intros cur H; simpl.
  - destruct H as [H|H]; [|done]. by apply truthy_true in H as ->.
  - simpl in H. destruct (is_space ch).
    + destruct (truthy cur) eqn:Hc; [done|]. apply truthy_false in Hc as ->.
      apply IH. destruct H as [H|H]; [done|by right].
    + apply IH. left. intros Hcur. apply append_empty in Hcur as [_ ->]. done.
Qed.

Lemma tokens_not_empty s : strip s ≠ "" → size (tokens s) ≠ 0%nat.
Proof.
  intros Hs. apply size_non_empty_iff. unfold tokens, words.
  destruct (words_aux "" (chars s)) as [|w ws] eqn:Hw.
  - apply words_aux_not_nil in Hw; [done|apply chars_wf|]. right.
    intros Hl. apply Hs, strip_empty. by apply ltrim_nil.
  - intros Hempty. assert (w ∈ (list_to_set (w :: ws) : gset string)) as Hin.
    { apply elem_of_list_to_set. left. }
    rewrite Hempty in Hin. by apply not_elem_of_empty in Hin.
Qed.

Lemma token_set_ratio_sym a b : token_set_ratio a b == token_set_ratio b a.
Proof.
  unfold token_set_ratio.
  by rewrite (comm_L (∩) (tokens a)), (Nat.add_comm (size (tokens a))).
Qed.

Lemma token_set_ratio_refl a : strip a ≠ "" → token_set_ratio a a == 100.
Proof.
  intros Ha. apply tokens_not_empty in Ha. unfold token_set_ratio.
  rewrite (idemp_L (∩)).
  destruct (Nat.eqb_spec (size (tokens a) + size (tokens a)) 0) as [|_]; [lia|].
  replace (size (tokens a) + size (tokens a))%nat with (2 * size (tokens a))%nat by lia.
  apply Qdiv_mult_l. unfold Qeq. simpl. lia.
Qed.

(** The reference database meets what is known of the interpreter's. *)
Lemma decimal_digit_not_space ch : is_space ch = true → decimal_digit ch = false.
Proof. intros H. space_cases H; by vm_compute. Qed.

Lemma lower_latin1_not_empty ch : ch ≠ "" → lower_latin1 ch ≠ "".
Proof.
  destruct ch as [|c [|d [|e t]]]; [done|done| |done]. intros _. simpl.
  by destruct (_ && _).
Qed.

Lemma lower_chars_not_empty s : s ≠ "" → lower_chars s ≠ "".
Proof.
  intros Hs. unfold lower_chars. destruct (chars_wf s) as [Hg _].
  destruct (chars s) as [|ch l] eqn:Hc; [by apply chars_nil in Hc|].
  apply Forall_cons in Hg as [Hch _]. rewrite fmap_cons, join_cons.
  intros [H _]%append_empty. revert H. apply lower_latin1_not_empty.
  by destruct ch.
Qed.

End SpecFuzzFacts.

(** ** Claims on the similarity score *)

Module ScoreClaims.
Import Str StrFacts DictFacts ScoreFacts.

Local Open Scope Q_scope.

Section Scorer.

Context {E : Externals}.


Lemma multi_score_sym sim norm k a b :
  (∀ x y, sim x y == sim y x) →
  Forall2 Qeq (multi_score sim norm k a b) (multi_score sim norm k b a).
Proof.
  intros Hsym. unfold multi_score.
  destruct (dict_get k a) as [va|], (dict_get k b) as [vb|]; try done.
  rewrite (andb_comm (truthy vb)). destruct (truthy va && truthy vb); [|done].
  destruct (py_max_equiv
              (pair_scores sim (sub_values norm va) (sub_values norm vb))
              (pair_scores sim (sub_values norm vb) (sub_values norm va)))
    as [m1 m2 Hm|]; [| |by repeat constructor|done].
  - intros q (x & y & ? & ? & ? & ? & ->)%elem_of_pair_scores.
    exists (sim y x). split; [|done]. apply elem_of_pair_scores. naive_solver.
  - intros q (x & y & ? & ? & ? & ? & ->)%elem_of_pair_scores.
    exists (sim y x). split; [|done]. apply elem_of_pair_scores. naive_solver.
Qed.

Lemma name_score_sym a b :
  (∀ x y, fuzz_token_set_ratio x y == fuzz_token_set_ratio y x) →
  Forall2 Qeq (name_score fuzz_token_set_ratio a b) (name_score fuzz_token_set_ratio b a).
Proof.
  intros Hsym. unfold name_score.
  destruct (dict_get "fn" a) as [va|], (dict_get "fn" b) as [vb|]; try done.
  rewrite (andb_comm (truthy vb)). destruct (truthy va && truthy vb); [|done].
  by repeat constructor.
Qed.

(** C4: the similarity score is symmetric, for similarity functions that are
    symmetric themselves. *)
Theorem score_symmetric (a b : record) :
  (∀ x y, fuzz_ratio x y == fuzz_ratio y x) →
  (∀ x y, fuzz_token_set_ratio x y == fuzz_token_set_ratio y x) →
  compute_match_score a b == compute_match_score b a.
Proof.
  intros Hr Ht. apply score_equiv. unfold score_list.
  repeat apply Forall2_app; auto using multi_score_sym, name_score_sym.
Qed.

(** C8: when neither record has any of [tel], [email], [fn] populated, or
    when no category is populated on both sides, the score is 0. *)
Theorem score_zero_when_nothing_shared (a b : record) :
  (∀ k, k ∈ ["tel"; "email"; "fn"] → populated k a = false ∧ populated k b = false)
  ∨ (∀ k, k ∈ ["tel"; "email"; "fn"] → populated k a && populated k b = false) →
  score_list a b = [] ∧ compute_match_score a b = 0.
Proof.
  intros H.
  assert (∀ k, k ∈ ["tel"; "email"; "fn"] → populated k a && populated k b = false)
    as Hk.
  { destruct H as [H|H]; [|done]. intros k Hin. by destruct (H k Hin) as [-> _]. }
  assert (score_list a b = []) as Hnil.
  { unfold score_list.
    rewrite !multi_score_unshared, name_score_unshared by (apply Hk; in_list).
    done. }
  split; [done|]. by rewrite score_of_list, Hnil.
Qed.

Lemma multi_score_self sim norm k a :
  (∀ x, x ≠ "" → sim x x == 100) → (∀ x y, sim x y <= 100) →
  Forall (λ m, m == 100) (multi_score sim norm k a a).
Proof.
  intros Hrefl Hle. unfold multi_score.
  destruct (dict_get k a) as [v|]; [|done].
  destruct (truthy v && truthy v); [|done].
  destruct (py_max _) as [m|] eqn:Hmax; [|done].
  apply py_max_Some in Hmax as [Hin Hub]. repeat constructor.
  apply elem_of_pair_scores in Hin as (x & y & Hx & Hy & Tx & Ty & ->).
  apply Qle_antisym; [apply Hle|].
  rewrite <- (Hrefl x Tx). apply Hub. apply elem_of_pair_scores.
  by exists x, x.
Qed.

Lemma multi_score_self_some sim norm k a v p :
  dict_get k a = Some v → p ∈ split ";" v → strip p ≠ "" → norm p ≠ "" →
  multi_score sim norm k a a ≠ [].
Proof.
  intros Hget Hp Hs Hn. unfold multi_score. rewrite Hget.
  assert (truthy v = true) as ->.
  { apply truthy_true. intros ->. apply list_elem_of_singleton in Hp as ->. done. }
  simpl. assert (norm p ∈ sub_values norm v) as Hin.
  { unfold sub_values. apply list_elem_of_fmap. exists p. split; [done|].
    apply list_elem_of_filter. split; [by apply truthy_true|done]. }
  destruct (py_max_is_Some (pair_scores sim (sub_values norm v) (sub_values norm v))
              (sim (norm p) (norm p))) as [m ->]; [|done].
  apply elem_of_pair_scores. naive_solver.
Qed.

Lemma name_score_self a :
  (∀ x, strip x ≠ "" → fuzz_token_set_ratio x x == 100) → name_not_blank a →
  Forall (λ m, m == 100) (name_score fuzz_token_set_ratio a a).
Proof.
  intros Hrefl Hname. unfold name_score.
  destruct (dict_get "fn" a) as [v|] eqn:Hget; [|done].
  destruct (truthy v) eqn:Hv; [|done]. apply truthy_true in Hv.
  destruct (Hname v Hget) as [?|Hs]; [done|]. repeat constructor. by apply Hrefl.
Qed.

(** C3 (amended): the score of a record with itself is 100 when the record has
    a telephone sub-value that holds a digit, or an e-mail sub-value that is
    not blank, or a full name that is not blank, and its full name, when
    non-empty, is not blank; for similarity functions that give 100 on equal
    arguments (the token-set ratio: on equal names with a token) and never
    more than 100, and for a Unicode database in which no whitespace
    character is a decimal digit and the lower case of a non-empty string is
    not empty. *)
Theorem self_score (a : record) :
  (∀ x, x ≠ "" → fuzz_ratio x x == 100) →
  (∀ x y, fuzz_ratio x y <= 100) →
  (∀ x, strip x ≠ "" → fuzz_token_set_ratio x x == 100) →
  (∀ ch, is_space ch = true → decimal ch = false) →
  (∀ x, x ≠ "" → unicode_lower x ≠ "") →
  has_phone a ∨ has_email a ∨ has_name a →
  name_not_blank a →
  compute_match_score a a == 100.
Proof.
  intros Hrefl Hle Htsr Hnd Hlow Hcmp Hname. apply score_const.
  - unfold score_list. intros Hnil.
    apply app_eq_nil in Hnil as [Htel Hnil]. apply app_eq_nil in Hnil as [Hmail Hfn].
    destruct Hcmp as [(v & p & Hget & Hp & Hd)|[(v & p & Hget & Hp & Hs)|(v & Hget & Hs)]].
    + revert Htel. eapply multi_score_self_some; eauto. by apply digits_strip.
    + revert Hmail. eapply multi_score_self_some; eauto.
      unfold normalize_email. by apply lower_not_empty.
    + unfold name_score in Hfn. rewrite Hget in Hfn.
      assert (truthy v = true) as Hv by (apply truthy_true; by intros ->).
      rewrite Hv in Hfn. done.
  - unfold score_list. repeat apply Forall_app_2;
      auto using multi_score_self, name_score_self.
Qed.

End Scorer.

(** C3, as stated, fails: a record whose only comparable field is a telephone
    number without any digit scores 0 with itself; and a blank full name
    halves the score of a record with a telephone number. *)
Lemma self_score_counterexample :
  populated "tel" [("uid", "0"); ("tel", "abc")] = true
  ∧ compute_match_score (E := SpecFuzz.reference)
      [("uid", "0"); ("tel", "abc")] [("uid", "0"); ("tel", "abc")] = 0
  ∧ ¬ (compute_match_score (E := SpecFuzz.reference)
         [("uid", "0"); ("tel", "abc")] [("uid", "0"); ("tel", "abc")] == 100)
  ∧ compute_match_score (E := SpecFuzz.reference)
      [("uid", "0"); ("tel", "555"); ("fn", " ")]
      [("uid", "0"); ("tel", "555"); ("fn", " ")] == 50.
Proof.
  split; [reflexivity|]. split; [reflexivity|]. split; [|vm_compute; reflexivity].
  vm_compute. discriminate.
Qed.

Lemma score_symmetric_witness :
  compute_match_score (E := SpecFuzz.reference)
    [("uid", "0"); ("tel", "555-1234;777"); ("fn", "John Smith")]
    [("uid", "1"); ("tel", "5551235"); ("email", "j@x.org"); ("fn", "Smith John")]
  == compute_match_score (E := SpecFuzz.reference)
    [("uid", "1"); ("tel", "5551235"); ("email", "j@x.org"); ("fn", "Smith John")]
    [("uid", "0"); ("tel", "555-1234;777"); ("fn", "John Smith")].
Proof.
  apply (score_symmetric (E := SpecFuzz.reference)).
  - apply SpecFuzzFacts.ratio_sym.
  - apply SpecFuzzFacts.token_set_ratio_sym.
Defined.

Lemma score_zero_when_nothing_shared_witness :
  compute_match_score (E := SpecFuzz.reference)
    [("uid", "0"); ("tel", "555-1234"); ("fn", "")]
    [("uid", "1"); ("email", "j@x.org"); ("fn", "John")] = 0.
Proof.
  apply (score_zero_when_nothing_shared (E := SpecFuzz.reference)).
  right. intros k Hk. repeat (apply elem_of_cons in Hk as [->|Hk]; [reflexivity|]).
  by apply elem_of_nil in Hk.
Defined.

Lemma self_score_witness :
  compute_match_score (E := SpecFuzz.reference)
    [("uid", "0"); ("tel", utf8 0x665 +:+ "55-1234;n/a");
     ("fn", "John" +:+ utf8 0xA0 +:+ "Smith")]
    [("uid", "0"); ("tel", utf8 0x665 +:+ "55-1234;n/a");
     ("fn", "John" +:+ utf8 0xA0 +:+ "Smith")] == 100.
Proof.
  apply (self_score (E := SpecFuzz.reference)).
  - apply SpecFuzzFacts.ratio_refl.
  - apply SpecFuzzFacts.ratio_le_100.
  - apply SpecFuzzFacts.token_set_ratio_refl.
  - apply SpecFuzzFacts.decimal_digit_not_space.
  - apply SpecFuzzFacts.lower_chars_not_empty.
  - left. exists (utf8 0x665 +:+ "55-1234;n/a"), (utf8 0x665 +:+ "55-1234").
    split; [reflexivity|]. split; [vm_compute; left|vm_compute; discriminate].
  - intros v [= <-]. right. vm_compute. discriminate.
Defined.

End ScoreClaims.

(** ** Deduplication engine *)

Module EngineFacts.
Import Str StrFacts DictFacts ScoreFacts.

Lemma same_core_refl c : same_core c c.
Proof. by intros k _. Qed.

Lemma same_core_annotate c uid certainty :
  same_core c (dict_set "certainty" certainty (dict_set "match" uid c)).
Proof.
  intros k Hk. rewrite !dict_get_set_ne; [done| |].
  - intros <-. repeat (apply elem_of_cons in Hk as [?|Hk]; [done|]).
    by apply elem_of_nil in Hk.
  - intros <-. repeat (apply elem_of_cons in Hk as [?|Hk]; [done|]).
    by apply elem_of_nil in Hk.
Qed.

Section Engine.

Context {E : Externals}.


Lemma score_same_core c m m' : same_core m m' → compute_match_score c m = compute_match_score c m'.
Proof.
  intros H. apply score_ext; [done|]. intros k Hk. apply H.
  repeat (apply elem_of_cons in Hk as [->|Hk]; [in_list|]).
  by apply elem_of_nil in Hk.
Qed.

Lemma link_scan_ext th cur cands cands' :
  Forall2 same_core cands cands' → link_scan th cur cands = link_scan th cur cands'.
Proof.
  induction 1 as [|c c' cands cands' Hc _ IH]; simpl; [done|].
  rewrite (score_same_core cur c c' Hc), IH, (Hc "uid") by in_list. done.
Qed.

Lemma link_scan_core th cur cands r :
  link_scan th cur cands = Some r → same_core cur r.
Proof.
  induction cands as [|c cands IH]; simpl.
  - intros [= <-]. apply same_core_refl.
  - destruct (Qle_bool th (compute_match_score cur c)); [|done].
    destruct (dict_get "uid" c); [|done]. intros [= <-]. apply same_core_annotate.
Qed.

Lemma link_scan_total th cur cands :
  Forall has_uid cands → is_Some (link_scan th cur cands).
Proof.
  induction 1 as [|c cands [u Hu] _ IH]; simpl; [done|].
  destruct (Qle_bool th (compute_match_score cur c)); [|done]. by rewrite Hu.
Qed.

(** What the inner loop of link mode computes: the first candidate that
    reaches the threshold annotates the record; without one it is returned
    as it is. *)
Lemma link_scan_spec th cur cands r :
  link_scan th cur cands = Some r →
  (∃ j candidate uid,
      cands !! j = Some candidate
      ∧ Qle_bool th (compute_match_score cur candidate) = true
      ∧ (∀ j' c, j' < j → cands !! j' = Some c → Qle_bool th (compute_match_score cur c) = false)
      ∧ dict_get "uid" candidate = Some uid
      ∧ r = dict_set "certainty" (str (compute_match_score cur candidate))
              (dict_set "match" uid cur))
  ∨ ((∀ j c, cands !! j = Some c → Qle_bool th (compute_match_score cur c) = false) ∧ r = cur).
Proof.
  revert r. induction cands as [|c cands IH]; simpl; intros r Hr.
  { right. split; [|congruence]. intros j c Hc. by rewrite lookup_nil in Hc. }
  destruct (Qle_bool th (compute_match_score cur c)) eqn:Hhit.
  - destruct (dict_get "uid" c) as [u|] eqn:Hu; [|done]. injection Hr as <-.
    left. exists 0, c, u. repeat split; try done. intros j' c' Hlt. lia.
  - destruct (IH r Hr) as [(j & cand & u & Hj & Hc & Hfirst & Hu & ->)|[Hall ->]].
    + left. exists (S j), cand, u. repeat split; try done.
      intros [|j'] c' Hlt Hl; simpl in Hl; [congruence|].
      apply (Hfirst j'); [lia|done].
    + right. split; [|done]. intros [|j] c' Hl; simpl in Hl; [congruence|].
      by apply (Hall j).
Qed.

Lemma link_inv_start th orig : link_inv th orig 1 orig.
Proof.
  split; [done|]. intros k c Hk. split; [|done].
  intros Hlt. assert (k = 0) as -> by lia. exists c. by rewrite take_0.
Qed.

Lemma link_inv_core th orig i cs :
  link_inv th orig i cs → Forall2 same_core orig cs.
Proof.
  intros [Hlen Hinv]. apply Forall2_same_length_lookup. split; [done|].
  intros k c c' Hc Hc'. destruct (Hinv k c Hc) as [Hlt Hge].
  destruct (decide (k < i)) as [Hk|Hk].
  - destruct (Hlt Hk) as (r & Hr & Hr'). rewrite Hc' in Hr'. injection Hr' as ->.
    by eapply link_scan_core.
  - rewrite Hge in Hc' by lia. injection Hc' as <-. apply same_core_refl.
Qed.

Lemma link_step_inv th orig i cs :
  Forall has_uid orig → link_inv th orig i cs → i < length orig →
  ∃ cs', link_step th cs i = Some cs' ∧ link_inv th orig (S i) cs'.
Proof.
  intros Huid Hinv Hi. pose proof (link_inv_core _ _ _ _ Hinv) as Hcore.
  destruct Hinv as [Hlen Hinv].
  destruct (lookup_lt_is_Some_2 orig i Hi) as [c Hc].
  destruct (Hinv i c Hc) as [_ Hcs]. specialize (Hcs (le_n _)).
  assert (link_scan th c (take i cs) = link_scan th c (take i orig)) as Hscan.
  { symmetry. apply link_scan_ext. by apply Forall2_take. }
  destruct (link_scan_total th c (take i orig)) as [c' Hc']; [by apply Forall_take|].
  exists (<[i:=c']> cs). split.
  { unfold link_step. by rewrite Hcs, Hscan, Hc'. }
  split; [by rewrite length_insert|].
  intros k d Hd. destruct (Hinv k d Hd) as [Hlt Hge]. split.
  - intros Hk. destruct (decide (k = i)) as [->|Hne].
    + exists c'. rewrite Hc in Hd. injection Hd as <-.
      split; [done|]. apply list_lookup_insert_eq. lia.
    + rewrite list_lookup_insert_ne by done. apply Hlt. lia.
  - intros Hk. rewrite list_lookup_insert_ne by lia. apply Hge. lia.
Qed.

Lemma link_loop_inv th orig n i cs :
  Forall has_uid orig → link_inv th orig i cs → i + n ≤ length orig →
  ∃ out, link_loop th (seq i n) cs = Some out ∧ link_inv th orig (i + n) out.
Proof.
  intros Huid. revert i cs. induction n as [|n IH]; intros i cs Hinv Hle; simpl.
  { exists cs. by rewrite Nat.add_0_r. }
  destruct (link_step_inv th orig i cs Huid Hinv) as (cs' & -> & Hinv'); [lia|].
  destruct (IH (S i) cs' Hinv') as (out & Hout & Hfin); [lia|].
  exists out. split; [done|]. by replace (i + S n) with (S i + n) by lia.
Qed.

(** Link mode returns, at every position, what the inner loop makes of the
    input record there against the input records before it. *)
Lemma link_loop_result th orig :
  Forall has_uid orig →
  ∃ out, link_loop th (seq 1 (length orig - 1)) orig = Some out
    ∧ length out = length orig
    ∧ ∀ i c, orig !! i = Some c →
        ∃ c', link_scan th c (take i orig) = Some c' ∧ out !! i = Some c'.
Proof.
  intros Huid. destruct orig as [|c0 orig'] eqn:Horig.
  { exists []. repeat split. intros i c Hc. by rewrite lookup_nil in Hc. }
  rewrite <- Horig in *.
  destruct (link_loop_inv th orig (length orig - 1) 1 orig Huid (link_inv_start th orig))
    as (out & Hout & Hlen & Hinv).
  { rewrite Horig. simpl. lia. }
  exists out. repeat split; [done|done|].
  intros i c Hc. destruct (Hinv i c Hc) as [Hlt _]. apply Hlt.
  apply lookup_lt_Some in Hc. lia.
Qed.


(** The inner loop of merge mode either finds no master, or stops at the
    first master that reaches the threshold. *)
Lemma scan_masters_cases th dry c ms :
  (dry = true → has_uid c ∧ Forall has_uid ms) →
  (Forall (λ m, Qle_bool th (compute_match_score c m) = false) ms
   ∧ scan_masters th dry c ms = Some (false, ms, []))
  ∨ (∃ pre m post out,
       ms = pre ++ m :: post
       ∧ Forall (λ m, Qle_bool th (compute_match_score c m) = false) pre
       ∧ Qle_bool th (compute_match_score c m) = true
       ∧ scan_masters th dry c ms
         = Some (true, pre ++ (if dry then m else merge_contacts m c) :: post, out)).
Proof.
  induction ms as [|m ms IH]; intros Hdry; simpl; [by left|].
  destruct (Qle_bool th (compute_match_score c m)) eqn:Hhit.
  - right. exists [], m, ms. destruct dry.
    + destruct Hdry as [[cu Hcu] Hms]; [done|].
      apply Forall_cons in Hms as [[mu Hmu] _]. rewrite Hcu, Hmu. by eexists.
    + by eexists.
  - destruct IH as [[Hall ->]|(pre & m' & post & out & -> & Hpre & Hm' & ->)].
    + intros ->. destruct Hdry as [? Hms]; [done|].
      by apply Forall_cons in Hms as [_ ?].
    + left. split; [by constructor|done].
    + right. exists (m :: pre), m', post, out. split; [done|].
      split; [by constructor|done].
Qed.

Lemma no_hit_cons th c rest ms :
  no_hit th (c :: rest) ms ↔
  Forall (λ m, Qle_bool th (compute_match_score c m) = false) ms ∧ no_hit th rest (ms ++ [c]).
Proof.
  unfold no_hit. split.
  - intros H. split.
    + specialize (H 0 c eq_refl). simpl in H. by rewrite app_nil_r in H.
    + intros k d Hd. specialize (H (S k) d Hd). simpl in H.
      by rewrite <- app_assoc.
  - intros [H0 H] [|k] d Hd; simpl in *.
    + injection Hd as <-. by rewrite app_nil_r.
    + specialize (H k d Hd). by rewrite <- app_assoc in H.
Qed.

Lemma cluster_master_absorb g c :
  cluster_master (g.1, g.2 ++ [c]) = merge_contacts (cluster_master g) c.
Proof. unfold cluster_master. simpl. by rewrite fold_left_app. Qed.

(** Merge mode, from any state of the master list: the masters are clusters;
    the clusters founded on the way come from [rest], in its order; and every
    record of [rest] founds one exactly when none reaches the threshold. *)
Lemma merge_loop_spec th dry (P : record → Prop) rest :
  ∀ gs printed,
  (dry = true →
     Forall has_uid rest ∧ Forall (λ g, has_uid g.1 ∧ g.2 = []) gs) →
  Forall P rest → Forall (λ g, Forall P g.2) gs →
  ∃ gs' out fs,
    merge_loop th dry rest (cluster_master <$> gs) printed
      = Some (cluster_master <$> gs', out)
    ∧ gs'.*1 = gs.*1 ++ fs
    ∧ fs `sublist_of` rest
    ∧ (length fs = length rest ↔ no_hit th rest (cluster_master <$> gs))
    ∧ (dry = true → Forall (λ g, g.2 = []) gs')
    ∧ Forall (λ g, Forall P g.2) gs'.
Proof.
  induction rest as [|c rest IH]; intros gs printed Hdry HP HPgs.
  { exists gs, printed, []. rewrite app_nil_r.
    split; [done|]. split; [done|]. split; [constructor|]. split; [|split].
    - split; [|done]. intros _ k d Hd. by rewrite lookup_nil in Hd.
    - intros ->. destruct Hdry as [_ H]; [done|].
      eapply Forall_impl; [exact H|]. by intros g [_ ?].
    - done. }
  apply Forall_cons in HP as [HPc HP].
  assert (dry = true → Forall has_uid (cluster_master <$> gs)) as Hms.
  { intros ->. destruct Hdry as [_ H]; [done|]. apply Forall_fmap.
    eapply Forall_impl; [exact H|]. intros [f ds] [? Hds]. simpl in *. by subst ds. }
  destruct (scan_masters_cases th dry c (cluster_master <$> gs))
    as [[Hmiss Hscan]|(pre & m & post & out & Hsplit & Hpre & Hm & Hscan)].
  { intros ->. destruct Hdry as [H _]; [done|].
    apply Forall_cons in H as [? _]. auto. }
  - (* no master matches: [c] founds a cluster *)
    destruct (IH (gs ++ [(c, [])]) (printed ++ []))
      as (gs' & out & fs & Hloop & Hfst & Hsub & Hlen & Hdups & HPgs').
    { intros ->. destruct Hdry as [H1 H2]; [done|].
      apply Forall_cons in H1 as [? ?]. split; [done|].
      apply Forall_app. split; [done|]. by repeat constructor. }
    { done. }
    { apply Forall_app. split; [done|]. by repeat constructor. }
    exists gs', out, (c :: fs). simpl. rewrite Hscan. rewrite fmap_app in Hloop.
    split; [exact Hloop|]. split.
    { rewrite Hfst, fmap_app, <- app_assoc. done. }
    split; [by constructor|]. split; [|done].
    rewrite no_hit_cons. rewrite fmap_app in Hlen. simpl. split.
    + intros Heq. split; [done|]. apply Hlen. lia.
    + intros [_ Hno]. f_equal. by apply Hlen.
  - (* the first matching master absorbs [c], or is reported *)
    apply fmap_app_inv in Hsplit as (gpre & gtail & -> & Htail & ->).
    symmetry in Htail. apply fmap_cons_inv in Htail as (g & gpost & -> & -> & ->).
    apply Forall_app in HPgs as [HPpre HPtail].
    apply Forall_cons in HPtail as [HPg HPpost].
    destruct (IH (gpre ++ (if dry then g else (g.1, g.2 ++ [c])) :: gpost)
                 (printed ++ out))
      as (gs' & out' & fs & Hloop & Hfst & Hsub & Hlen & Hdups & HPgs').
    { intros ->. destruct Hdry as [H1 H2]; [done|].
      by apply Forall_cons in H1 as [_ ?]. }
    { done. }
    { apply Forall_app. split; [done|]. constructor; [|done].
      destruct dry; [done|]. simpl. apply Forall_app. split; [done|].
      by repeat constructor. }
    exists gs', out', fs. simpl. rewrite Hscan.
    assert (cluster_master <$> gpre ++ (if dry then g else (g.1, g.2 ++ [c])) :: gpost
            = (cluster_master <$> gpre)
              ++ (if dry then cluster_master g else merge_contacts (cluster_master g) c)
              :: (cluster_master <$> gpost)) as Hms'.
    { rewrite fmap_app, fmap_cons. destruct dry; [done|].
      by rewrite cluster_master_absorb. }
    rewrite Hms' in Hloop. split; [exact Hloop|]. split.
    { rewrite Hfst, !fmap_app, !fmap_cons. by destruct dry. }
    split; [by constructor|]. split; [|done].
    apply sublist_length in Hsub. rewrite no_hit_cons. simpl. split; [lia|].
    intros [Hall _]. rewrite fmap_app, fmap_cons in Hall.
    apply Forall_app in Hall as [_ Hall]. apply Forall_cons in Hall as [Hg _].
    congruence.
Qed.

End Engine.

End EngineFacts.

(** ** Claims on the deduplication engine *)

Module EngineClaims.
Import Str StrFacts DictFacts ScoreFacts EngineFacts.

Section Engine.

Context {E : Externals}.


(** C1: in link mode, on records that carry a [uid], every record is compared
    with the earlier records in increasing order; the first one whose score
    reaches the threshold (inclusive) gives the record its [match] (that
    candidate's [uid]) and its [certainty] (the string form of that score),
    whatever the later ones score; a record without such a candidate is
    returned as it came; and as many records are returned as were given. *)
Theorem link_mode_earliest_match (contacts : list record) (threshold : Q)
    (dry_run : bool) :
  Forall has_uid contacts →
  ∃ out,
    deduplicate_contacts contacts threshold false dry_run = Some (out, [])
    ∧ length out = length contacts
    ∧ ∀ i current, contacts !! i = Some current →
        (∃ j candidate uid current',
            j < i ∧ contacts !! j = Some candidate
            ∧ (threshold <= compute_match_score current candidate)%Q
            ∧ (∀ j' c, j' < j → contacts !! j' = Some c →
                 ¬ (threshold <= compute_match_score current c)%Q)
            ∧ dict_get "uid" candidate = Some uid
            ∧ out !! i = Some current'
            ∧ current' = dict_set "certainty" (str (compute_match_score current candidate))
                           (dict_set "match" uid current)
            ∧ dict_get "match" current' = Some uid
            ∧ dict_get "certainty" current' = Some (str (compute_match_score current candidate)))
        ∨ ((∀ j c, j < i → contacts !! j = Some c →
              ¬ (threshold <= compute_match_score current c)%Q)
           ∧ out !! i = Some current).
Proof.
  intros Huid.
  destruct (link_loop_result threshold contacts Huid)
    as (out & Hloop & Hlen & Hout).
  exists out. split; [|split; [done|]].
  { unfold deduplicate_contacts. simpl. by rewrite Hloop. }
  intros i current Hi. destruct (Hout i current Hi) as (r & Hscan & Hr).
  apply link_scan_spec in Hscan
    as [(j & cand & u & Hj & Hhit & Hfirst & Hu & ->)|[Hnone ->]].
  - left. apply lookup_take_Some in Hj as [Hj Hlt].
    exists j, cand, u, (dict_set "certainty" (str (compute_match_score current cand))
                          (dict_set "match" u current)).
    split; [done|]. split; [done|]. split; [by apply Qle_bool_iff|]. split.
    { intros j' c Hj' Hc Hle. apply Qle_bool_iff in Hle.
      rewrite (Hfirst j' c) in Hle; [done|done|].
      rewrite lookup_take_lt by lia. done. }
    split; [done|]. split; [done|]. split; [done|]. split.
    + rewrite dict_get_set_ne by done. apply dict_get_set_eq.
    + apply dict_get_set_eq.
  - right. split; [|done]. intros j c Hj Hc Hle. apply Qle_bool_iff in Hle.
    rewrite (Hnone j c) in Hle; [done|]. by rewrite lookup_take_lt.
Qed.


(** C10: in link mode the [dry_run] flag changes nothing. *)
Theorem link_mode_ignores_dry_run (contacts : list record) (threshold : Q) :
  deduplicate_contacts contacts threshold false true
  = deduplicate_contacts contacts threshold false false.
Proof. unfold deduplicate_contacts. simpl. reflexivity. Qed.

Lemma phone_scenario_tel_score a b :
  dict_get "tel" a = Some "555-1234" → dict_get "tel" b = Some "5551234" →
  multi_score fuzz_ratio normalize_phone "tel" a b = [fuzz_ratio "5551234" "5551234"]
  ∧ multi_score fuzz_ratio normalize_phone "tel" b a = [fuzz_ratio "5551234" "5551234"].
Proof. intros Ha Hb. unfold multi_score. rewrite Ha, Hb. by vm_compute. Qed.

(** C9: two records whose only shared comparable field is [tel], one with
    ["555-1234"] and one with ["5551234"]: both telephone numbers normalise to
    the same digits, the telephone sub-score is 100 and so is the score, and
    under every threshold up to 100 link mode links the second record to the
    first and merge mode merges it into the first; for a similarity function
    that gives 100 on equal arguments. *)
Theorem formatted_phone_scenario (a b : record) (uid : string) (threshold : Q)
    (dry_run : bool) :
  (∀ x, x ≠ "" → (fuzz_ratio x x == 100)%Q) →
  dict_get "tel" a = Some "555-1234" → dict_get "tel" b = Some "5551234" →
  populated "email" a && populated "email" b = false →
  populated "fn" a && populated "fn" b = false →
  dict_get "uid" a = Some uid → (threshold <= 100)%Q →
  normalize_phone "555-1234" = normalize_phone "5551234"
  ∧ (∃ m, multi_score fuzz_ratio normalize_phone "tel" a b = [m] ∧ (m == 100)%Q)
  ∧ (compute_match_score a b == 100)%Q ∧ (compute_match_score b a == 100)%Q
  ∧ deduplicate_contacts [a; b] threshold false dry_run
    = Some ([a; dict_set "certainty" (str (compute_match_score b a)) (dict_set "match" uid b)], [])
  ∧ deduplicate_contacts [a; b] threshold true false
    = Some ([merge_contacts a b], []).
Proof.
  intros Hrefl Ha Hb Hmail Hfn Huid Hth.
  destruct (phone_scenario_tel_score a b Ha Hb) as [Hab Hba].
  assert (fuzz_ratio "5551234" "5551234" == 100)%Q as H100 by by apply Hrefl.
  assert (compute_match_score a b == 100)%Q as Hsab.
  { apply score_const; unfold score_list;
      rewrite Hab, multi_score_unshared, name_score_unshared by done;
      [done|by repeat constructor]. }
  assert (compute_match_score b a == 100)%Q as Hsba.
  { apply score_const; unfold score_list;
      rewrite Hba, multi_score_unshared, name_score_unshared
        by (by rewrite andb_comm);
      [done|by repeat constructor]. }
  assert (Qle_bool threshold (compute_match_score b a) = true) as Hhit.
  { apply Qle_bool_iff. by rewrite Hsba. }
  split; [reflexivity|]. split; [by eexists|]. split; [done|]. split; [done|].
  unfold deduplicate_contacts, link_step. simpl.
  unfold link_step. simpl. rewrite Hhit, Huid. done.
Qed.

End Engine.

Lemma link_mode_earliest_match_witness :
  ∃ out,
    deduplicate_contacts (E := SpecFuzz.reference)
      [[("uid", "0"); ("tel", "555-1234"); ("match", ""); ("certainty", "")];
       [("uid", "1"); ("tel", "5551234"); ("match", ""); ("certainty", "")];
       [("uid", "2"); ("tel", "555 1234"); ("match", ""); ("certainty", "")]]
      100 false false = Some (out, [])
    ∧ length out = 3
    ∧ out !! 2 ≫= dict_get "match" = Some "0".
Proof.
  destruct (link_mode_earliest_match (E := SpecFuzz.reference)
              [[("uid", "0"); ("tel", "555-1234"); ("match", ""); ("certainty", "")];
               [("uid", "1"); ("tel", "5551234"); ("match", ""); ("certainty", "")];
               [("uid", "2"); ("tel", "555 1234"); ("match", ""); ("certainty", "")]]
              100%Q false ltac:(by_evaluation)) as (out & Hout & Hlen & _).
  exists out. split; [exact Hout|]. split; [exact Hlen|].
  vm_compute in Hout. injection Hout as <-. reflexivity.
Defined.


Lemma formatted_phone_scenario_witness :
  (compute_match_score (E := SpecFuzz.reference)
     [("uid", "0"); ("tel", "555-1234"); ("fn", "John Smith")]
     [("uid", "1"); ("tel", "5551234"); ("email", "j@x.org")] == 100)%Q
  ∧ deduplicate_contacts (E := SpecFuzz.reference)
      [[("uid", "0"); ("tel", "555-1234"); ("fn", "John Smith")];
       [("uid", "1"); ("tel", "5551234"); ("email", "j@x.org")]]
      80 true false
    = Some ([merge_contacts [("uid", "0"); ("tel", "555-1234"); ("fn", "John Smith")]
                            [("uid", "1"); ("tel", "5551234"); ("email", "j@x.org")]],
            []).
Proof.
  destruct (formatted_phone_scenario (E := SpecFuzz.reference)
              [("uid", "0"); ("tel", "555-1234"); ("fn", "John Smith")]
              [("uid", "1"); ("tel", "5551234"); ("email", "j@x.org")]
              "0" 80%Q false
              SpecFuzzFacts.ratio_refl eq_refl eq_refl eq_refl eq_refl eq_refl
              ltac:(vm_compute; discriminate))
    as (_ & _ & Hscore & _ & _ & Hmerge).
  split; [exact Hscore|exact Hmerge].
Defined.

End EngineClaims.

(** * Further properties of the code *)

(** ** Normaliser and scorer *)

Module ScoreMore.
Import Str StrFacts DictFacts ScoreFacts.

Section Normaliser.

Context {E : Externals}.


End Normaliser.


Local Open Scope Q_scope.

Lemma py_sum_bounds lo hi l :
  Forall (λ m, lo <= m ∧ m <= hi) l →
  lo * inject_Z (Z.of_nat (length l)) <= py_sum l
  ∧ py_sum l <= hi * inject_Z (Z.of_nat (length l)).
Proof.
  induction 1 as [|x l [Hlo Hhi] _ [IHlo IHhi]].
  - unfold py_sum. simpl. rewrite !Qmult_0_r. split; apply Qle_refl.
  - rewrite py_sum_cons. cbn [length].
    rewrite Nat2Z.inj_succ, <- Z.add_1_r, inject_Z_plus.
    change (inject_Z 1) with 1. split; lra.
Qed.

Lemma count_positive n : 0 < inject_Z (Z.of_nat (S n)).
Proof. unfold Qlt. simpl. lia. Qed.

Section Scorer.

Context {E : Externals}.

Lemma multi_score_bounds sim norm k a b lo hi :
  (∀ x y, lo <= sim x y ∧ sim x y <= hi) →
  Forall (λ m, lo <= m ∧ m <= hi) (multi_score sim norm k a b).
Proof.
  intros Hsim. unfold multi_score.
  destruct (dict_get k a) as [va|], (dict_get k b) as [vb|]; try done.
  destruct (truthy va && truthy vb); [|done].
  destruct (py_max _) as [m|] eqn:Hmax; [|done].
  apply py_max_Some in Hmax as [Hin _].
  apply elem_of_pair_scores in Hin as (x & y & _ & _ & _ & _ & ->).
  constructor; [apply Hsim|constructor].
Qed.

Lemma name_score_bounds a b lo hi :
  (∀ x y, lo <= fuzz_token_set_ratio x y ∧ fuzz_token_set_ratio x y <= hi) →
  Forall (λ m, lo <= m ∧ m <= hi) (name_score fuzz_token_set_ratio a b).
Proof.
  intros Hsim. unfold name_score.
  destruct (dict_get "fn" a) as [va|], (dict_get "fn" b) as [vb|]; try done.
  destruct (truthy va && truthy vb); [|done].
  constructor; [apply Hsim|constructor].
Qed.

(** X2: the score lies between 0 and 100 whenever the two similarity functions
    do. *)
Theorem score_bounds (a b : record) :
  (∀ x y, 0 <= fuzz_ratio x y ∧ fuzz_ratio x y <= 100) →
  (∀ x y, 0 <= fuzz_token_set_ratio x y ∧ fuzz_token_set_ratio x y <= 100) →
  0 <= compute_match_score a b ∧ compute_match_score a b <= 100.
Proof.
  intros Hr Ht. rewrite score_of_list.
  assert (Forall (λ m, 0 <= m ∧ m <= 100) (score_list a b)) as Hall.
  { unfold score_list. repeat apply Forall_app_2;
      auto using multi_score_bounds, name_score_bounds. }
  apply py_sum_bounds in Hall as [Hlo Hhi].
  destruct (score_list a b) as [|x l]; [split; [apply Qle_refl|discriminate]|].
  cbv beta iota zeta. pose proof (count_positive (length l)) as Hpos.
  cbn [length] in Hlo, Hhi. split.
  - apply Qle_shift_div_l; [done|]. by rewrite Qmult_0_l in *.
  - apply Qle_shift_div_r; [done|]. done.
Qed.

(** X3: the score reads nothing but the fields [tel], [email] and [fn] of the two
    records. *)
Theorem score_reads_three_fields (a a' b b' : record) :
  (∀ k, k ∈ ["tel"; "email"; "fn"] → dict_get k a = dict_get k a') →
  (∀ k, k ∈ ["tel"; "email"; "fn"] → dict_get k b = dict_get k b') →
  compute_match_score a b = compute_match_score a' b'.
Proof.
  intros Ha Hb. rewrite !score_of_list.
  by rewrite (score_list_ext a b a' b' Ha Hb).
Qed.

End Scorer.

Lemma lev_le_max a b :
  (SpecFuzz.lev a b ≤ String.length a `max` String.length b)%nat.
Proof.
  revert b. induction a as [|x a IHa]; intros b; [simpl; lia|].
  destruct b as [|y b]; [simpl; lia|].
  rewrite SpecFuzzFacts.lev_cons. specialize (IHa b). simpl String.length.
  destruct (Ascii.eqb x y); lia.
Qed.

Lemma reference_ratio_bounds a b :
  0 <= SpecFuzz.ratio a b ∧ SpecFuzz.ratio a b <= 100.
Proof.
  split; [|apply SpecFuzzFacts.ratio_le_100]. unfold SpecFuzz.ratio.
  destruct (Nat.eqb_spec (String.length a `max` String.length b) 0) as [|Hm]; [done|].
  pose proof (lev_le_max a b) as Hle.
  assert (inject_Z (Z.of_nat (SpecFuzz.lev a b))
          / inject_Z (Z.of_nat (String.length a `max` String.length b)) <= 1) as H.
  { apply Qle_shift_div_r.
    - unfold Qlt. simpl. lia.
    - rewrite Qmult_1_l. rewrite <- Zle_Qle. lia. }
  lra.
Qed.

Lemma reference_token_set_ratio_bounds a b :
  0 <= SpecFuzz.token_set_ratio a b ∧ SpecFuzz.token_set_ratio a b <= 100.
Proof.
  unfold SpecFuzz.token_set_ratio.
  destruct (Nat.eqb_spec (size (SpecFuzz.tokens a) + size (SpecFuzz.tokens b)) 0)
    as [|Hn]; [done|].
  assert (size (SpecFuzz.tokens a ∩ SpecFuzz.tokens b) ≤ size (SpecFuzz.tokens a))%nat
    as Ha by apply subseteq_size, intersection_subseteq_l.
  assert (size (SpecFuzz.tokens a ∩ SpecFuzz.tokens b) ≤ size (SpecFuzz.tokens b))%nat
    as Hb by apply subseteq_size, intersection_subseteq_r.
  assert (0 < inject_Z (Z.of_nat (size (SpecFuzz.tokens a) + size (SpecFuzz.tokens b))))
    as Hpos by (unfold Qlt; simpl; lia).
  split.
  - apply Qle_shift_div_l; [done|]. rewrite Qmult_0_l.
    apply Qmult_le_0_compat; [done|]. rewrite <- (Zle_Qle 0). lia.
  - apply Qle_shift_div_r; [done|]. apply Qmult_le_l; [done|].
    rewrite <- Zle_Qle. lia.
Qed.

Lemma score_bounds_witness :
  0 <= compute_match_score (E := SpecFuzz.reference)
         [("uid", "0"); ("tel", "555-1234"); ("fn", "John Smith")]
         [("uid", "1"); ("tel", "5551235;777"); ("fn", "Jon Smith")]
  ∧ compute_match_score (E := SpecFuzz.reference)
      [("uid", "0"); ("tel", "555-1234"); ("fn", "John Smith")]
      [("uid", "1"); ("tel", "5551235;777"); ("fn", "Jon Smith")] <= 100.
Proof.
  apply (score_bounds (E := SpecFuzz.reference)).
  - apply reference_ratio_bounds.
  - apply reference_token_set_ratio_bounds.
Defined.

Lemma score_reads_three_fields_witness :
  compute_match_score (E := SpecFuzz.reference)
    [("uid", "0"); ("tel", "555-1234"); ("match", "")]
    [("uid", "1"); ("tel", "5551234"); ("note", "a")]
  = compute_match_score (E := SpecFuzz.reference)
    [("uid", "7"); ("tel", "555-1234"); ("match", "3"); ("certainty", "90.0")]
    [("tel", "5551234")].
Proof.
  apply (score_reads_three_fields (E := SpecFuzz.reference)).
  - intros k Hk. repeat (apply elem_of_cons in Hk as [->|Hk]; [reflexivity|]).
    by apply elem_of_nil in Hk.
  - intros k Hk. repeat (apply elem_of_cons in Hk as [->|Hk]; [reflexivity|]).
    by apply elem_of_nil in Hk.
Defined.

End ScoreMore.

(** ** Field merger *)

Module MergeMore.
Import Str StrFacts DictFacts MergeFacts MergeClaims.

Lemma dict_set_keys k v r :
  (dict_set k v r).*1 = if bool_decide (k ∈ r.*1) then r.*1 else r.*1 ++ [k].
Proof.
  induction r as [|[k0 v0] r IH]; [done|]. cbn [dict_set].
  destruct (String.eqb_spec k0 k) as [->|Hne]; rewrite !fmap_cons; cbn [fst].
  - rewrite bool_decide_eq_true_2; [done|left].
  - rewrite IH. case_bool_decide as Hin.
    + rewrite bool_decide_eq_true_2; [done|by right].
    + rewrite bool_decide_eq_false_2; [done|].
      intros [?|?]%elem_of_cons; congruence.
Qed.

Lemma dict_set_same k v r : dict_get k r = Some v → dict_set k v r = r.
Proof.
  induction r as [|[k0 v0] r IH]; simpl; [done|].
  destruct (String.eqb_spec k0 k) as [->|Hne]; [by intros [= ->]|].
  intros H. by rewrite IH.
Qed.

Lemma dict_get_elem_of k v r :
  NoDup (r.*1) → (k, v) ∈ r → dict_get k r = Some v.
Proof.
  induction r as [|[k0 v0] r IH]; simpl; [by intros _ ?%elem_of_nil|].
  intros [Hk0 Hnd]%NoDup_cons [[= -> ->]|Hin]%elem_of_cons.
  - by rewrite String.eqb_refl.
  - destruct (String.eqb_spec k0 k) as [->|_]; [|by apply IH].
    exfalso. apply Hk0. apply list_elem_of_fmap. by exists (k, v).
Qed.

Lemma dict_get_keys k r : is_Some (dict_get k r) ↔ k ∈ r.*1.
Proof.
  induction r as [|[k0 v0] r IH]; [|cbn [dict_get]; rewrite fmap_cons; cbn [fst]].
  - split; [by intros [? ?]|by intros ?%elem_of_nil].
  - destruct (String.eqb_spec k0 k) as [->|Hne].
    + split; [left|eauto].
    + rewrite IH. split; [by right|]. intros [?|?]%elem_of_cons; [congruence|done].
Qed.

(** A loop iteration either keeps the keys of the master or appends the key
    it handles. *)
Lemma merge_field_keys m k v :
  (merge_field m k v).*1 = m.*1
  ∨ ((merge_field m k v).*1 = m.*1 ++ [k] ∧ (k ∉ m.*1) ∧ reserved k = false).
Proof.
  assert (∀ v', (dict_set k v' m).*1 = m.*1
                ∨ ((dict_set k v' m).*1 = m.*1 ++ [k] ∧ k ∉ m.*1)) as Hset.
  { intros v'. rewrite dict_set_keys. case_bool_decide; [by left|by right]. }
  unfold merge_field. destruct (reserved k) eqn:Hk; [by left|]. cbv zeta.
  destruct (negb _ && _).
  { destruct (Hset (strip v)) as [?|[? ?]]; [by left|by right]. }
  destruct (truthy (strip v) && _); [|by left].
  match goal with |- (dict_set k ?x m).*1 = _ ∨ _ =>
    destruct (Hset x) as [?|[? ?]]; [by left|by right] end.
Qed.

Lemma merge_field_noop m k v :
  strip v = "" ∨ strip v ∈ field_tokens k m → merge_field m k v = m.
Proof.
  intros Hin. unfold merge_field. destruct (reserved k); [done|]. cbv zeta.
  destruct Hin as [->|Hin]; [by rewrite andb_false_r|].
  unfold field_tokens in Hin. rewrite (bool_decide_eq_true_2 _ Hin), andb_false_r.
  destruct (truthy (strip (field_value k m))) eqn:Hm; simpl; [done|].
  apply truthy_false in Hm. rewrite Hm in Hin.
  apply list_elem_of_singleton in Hin as ->. done.
Qed.

Lemma merge_contacts_get_reserved m dup k :
  reserved k = true → dict_get k (merge_contacts m dup) = dict_get k m.
Proof.
  intros Hk. revert m. induction dup as [|[k0 v0] dup IH]; intros m; [done|].
  rewrite merge_contacts_cons, IH.
  destruct (decide (k0 = k)) as [->|Hne].
  - by rewrite merge_field_reserved.
  - by apply merge_field_get_ne.
Qed.

(** X5: through any sequence of merges the master keeps its [uid], [match] and
    [certainty], and every field that none of the merged records carries. *)
Theorem merge_preserves_reserved (master : record) (dups : list record)
    (key : string) :
  reserved key = true ∨ Forall (λ d, key ∉ d.*1) dups →
  dict_get key (fold_left merge_contacts dups master) = dict_get key master.
Proof.
  intros H. revert master. induction dups as [|d dups IH]; intros master; [done|].
  simpl. rewrite IH.
  - destruct H as [Hk|Hall]; [by apply merge_contacts_get_reserved|].
    apply Forall_cons in Hall as [Hd _]. by apply merge_contacts_get_absent.
  - destruct H as [?|Hall]; [by left|right]. by apply Forall_cons in Hall as [_ ?].
Qed.

Lemma merge_preserves_reserved_witness :
  dict_get "uid" (fold_left merge_contacts
                    [[("uid", "1"); ("tel", "555")]; [("uid", "2"); ("fn", "Jo")]]
                    [("uid", "0"); ("tel", "777")]) = Some "0".
Proof.
  apply (merge_preserves_reserved [("uid", "0"); ("tel", "777")]
           [[("uid", "1"); ("tel", "555")]; [("uid", "2"); ("fn", "Jo")]] "uid").
  left. reflexivity.
Defined.

Lemma merge_contacts_keys m dup :
  m.*1 `prefix_of` (merge_contacts m dup).*1
  ∧ (NoDup (m.*1) → NoDup ((merge_contacts m dup).*1))
  ∧ ∀ k, k ∈ (merge_contacts m dup).*1 →
         k ∈ m.*1 ∨ (k ∈ dup.*1 ∧ reserved k = false).
Proof.
  revert m. induction dup as [|[k0 v0] dup IH]; intros m.
  { split; [done|]. split; [done|]. intros k Hk. by left. }
  rewrite merge_contacts_cons.
  destruct (IH (merge_field m k0 v0)) as (Hpre & Hnd & Hin).
  destruct (merge_field_keys m k0 v0) as [Heq|(Heq & Hfresh & Hres)];
    rewrite Heq in Hpre, Hnd, Hin.
  - split; [done|]. split; [done|]. intros k Hk.
    destruct (Hin k Hk) as [?|[? ?]]; [by left|right].
    split; [|done]. rewrite fmap_cons. by right.
  - split; [by etrans; [apply prefix_app_r|exact Hpre]|]. split.
    + intros Hm. apply Hnd. apply NoDup_app. split; [done|].
      split; [|apply NoDup_singleton].
      intros x Hx ->%list_elem_of_singleton. done.
    + intros k Hk. destruct (Hin k Hk) as [Hk'|[? ?]].
      * apply elem_of_app in Hk' as [?|Hk']; [by left|].
        apply list_elem_of_singleton in Hk' as ->.
        right. split; [rewrite fmap_cons; left|done].
      * right. split; [|done]. rewrite fmap_cons. by right.
Qed.

(** X6: a merge keeps the master's fields in their order, appends the fields it
    takes over from the duplicate (never [uid], [match] or [certainty]), and
    keeps the keys distinct. *)
Theorem merge_keeps_field_order (master duplicate : record) :
  master.*1 `prefix_of` (merge_contacts master duplicate).*1
  ∧ (wf_record master → wf_record (merge_contacts master duplicate))
  ∧ ∀ k, k ∈ (merge_contacts master duplicate).*1 →
         k ∈ master.*1 ∨ (k ∈ duplicate.*1 ∧ reserved k = false).
Proof.
  destruct (merge_contacts_keys master duplicate) as (Hprefix & Hnodup & Hkeys).
  split; [exact Hprefix|]. split; [exact Hnodup|exact Hkeys].
Qed.

Lemma merge_keeps_field_order_witness :
  wf_record (merge_contacts [("uid", "0"); ("tel", "777")]
                            [("uid", "1"); ("fn", "Jo"); ("tel", "555")]).
Proof.
  apply (merge_keeps_field_order [("uid", "0"); ("tel", "777")]
           [("uid", "1"); ("fn", "Jo"); ("tel", "555")]).
  by_evaluation.
Defined.

Lemma merge_contacts_noop m dup :
  (∀ k v, (k, v) ∈ dup → merge_field m k v = m) → merge_contacts m dup = m.
Proof.
  induction dup as [|[k0 v0] dup IH]; intros H; [done|].
  rewrite merge_contacts_cons, (H k0 v0) by left.
  apply IH. intros k v Hin. apply H. by right.
Qed.

(** X7: merging the same duplicate a second time changes nothing, when each of
    its values is a single sub-value (holds no [;]). *)
Theorem merge_twice (master duplicate : record) :
  wf_record duplicate → Forall (λ kv, single_valued kv.2) duplicate →
  merge_contacts (merge_contacts master duplicate) duplicate
  = merge_contacts master duplicate.
Proof.
  intros Hwf Hsingle. apply merge_contacts_noop. intros k v Hin.
  pose proof (dict_get_elem_of k v duplicate Hwf Hin) as Hget.
  assert (single_valued v) as Hv.
  { rewrite Forall_forall in Hsingle. apply (Hsingle (k, v) Hin). }
  unfold single_valued in Hv.
  destruct (reserved k) eqn:Hk; [by apply merge_field_reserved|].
  apply merge_field_noop.
  destruct (merge_contacts_field master duplicate k v Hk Hwf Hget)
    as [(_ & _ & Hr)|[(Hm & Hne & _ & Hr)|([?|[_ Hmem]] & Hr)]].
  - right. unfold field_tokens. rewrite (field_value_Some _ _ _ Hr), strip_idem, Hv. left.
  - right. unfold field_tokens. rewrite (field_value_Some _ _ _ Hr).
    rewrite strip_join; [|done|apply strip_idem|done|apply strip_idem].
    pose proof (split_app ";" (strip (field_value k master)) (strip v)) as Happ.
    change (String ";" (strip v)) with (";" +:+ strip v) in Happ.
    rewrite Happ, Hv. apply elem_of_app. right. left.
  - by left.
  - right. by rewrite (field_tokens_ext _ _ _ Hr).
Qed.

Lemma merge_twice_witness :
  merge_contacts
    (merge_contacts [("uid", "0"); ("tel", "777"); ("fn", "Jo")]
                    [("uid", "1"); ("tel", " 555 "); ("fn", "Jo"); ("note", "x")])
    [("uid", "1"); ("tel", " 555 "); ("fn", "Jo"); ("note", "x")]
  = merge_contacts [("uid", "0"); ("tel", "777"); ("fn", "Jo")]
                   [("uid", "1"); ("tel", " 555 "); ("fn", "Jo"); ("note", "x")].
Proof.
  apply (merge_twice [("uid", "0"); ("tel", "777"); ("fn", "Jo")]
           [("uid", "1"); ("tel", " 555 "); ("fn", "Jo"); ("note", "x")]).
  - by_evaluation.
  - repeat constructor.
Defined.

End MergeMore.

(** ** Field-order tracker *)

Module FieldOrderFacts.
Import DictFacts.

(** The inner loop of [compute_field_order] over a list of keys. *)
Lemma field_order_flat (contacts : list record) order :
  fold_left (λ order contact, fold_left field_order_step contact.*1 order)
    contacts order
  = fold_left field_order_step (contacts ≫= λ c : record, c.*1) order.
Proof.
  revert order. induction contacts as [|c cs IH]; intros order; [done|].
  simpl. by rewrite IH, fold_left_app.
Qed.

Lemma compute_field_order_flat (contacts : list record) :
  compute_field_order contacts
  = fold_left field_order_step (contacts ≫= λ c : record, c.*1) [].
Proof. apply field_order_flat. Qed.

Lemma field_order_step_cases order k :
  (field_order_step order k = order ∧ (metadata k = true ∨ k ∈ order))
  ∨ (field_order_step order k = order ++ [k] ∧ metadata k = false ∧ k ∉ order).
Proof.
  unfold field_order_step. destruct (metadata k); [left; auto|].
  case_bool_decide; [left; auto|right; auto].
Qed.

Lemma scan_keys_elem_of order ks k :
  k ∈ fold_left field_order_step ks order
  ↔ k ∈ order ∨ (k ∈ ks ∧ metadata k = false).
Proof.
  revert order. induction ks as [|k0 ks IH]; intros order; simpl.
  { split; [by left|]. intros [?|[?%elem_of_nil _]]; done. }
  rewrite IH.
  destruct (field_order_step_cases order k0) as [[-> Hk0]|(-> & Hm & Hk0)].
  - split.
    + intros [?|[? ?]]; [by left|right]. split; [by right|done].
    + intros [?|[[-> |?]%elem_of_cons Hm]]; [by left| |by right].
      destruct Hk0 as [?|?]; [congruence|by left].
  - rewrite elem_of_app, list_elem_of_singleton. split.
    + intros [[?| ->]|[? ?]]; [by left|right|right].
      * split; [left|done].
      * split; [by right|done].
    + intros [?|[[-> |?]%elem_of_cons ?]]; [left; by left|left; by right|by right].
Qed.

Lemma scan_keys_NoDup order ks :
  NoDup order → NoDup (fold_left field_order_step ks order).
Proof.
  revert order. induction ks as [|k0 ks IH]; intros order Hnd; [done|].
  simpl. apply IH.
  destruct (field_order_step_cases order k0) as [[-> _]|(-> & _ & Hk0)]; [done|].
  apply NoDup_app. split; [done|]. split; [|apply NoDup_singleton].
  intros x Hx Hx'. apply list_elem_of_singleton in Hx' as ->. done.
Qed.

Lemma filter_all {A} (P : A → Prop) `{∀ x, Decision (P x)} (l : list A) :
  Forall P l → filter P l = l.
Proof.
  induction 1 as [|x l Hx _ IH]; [done|]. by rewrite filter_cons_True, IH.
Qed.

Lemma filter_not_in_nil (l : list string) : filter (λ k, k ∉ []) l = l.
Proof. apply filter_all, Forall_forall. intros x _ ?%elem_of_nil. done. Qed.

(** What is already in the order is skipped; the rest comes in the order in
    which a fresh run would list it. *)
Lemma scan_keys_law order ks :
  fold_left field_order_step ks order
  = order ++ filter (λ k, k ∉ order) (fold_left field_order_step ks []).
Proof.
  revert order. induction ks as [|k0 ks IH]; intros order; simpl.
  { by rewrite app_nil_r. }
  rewrite (IH (field_order_step order k0)), (IH (field_order_step [] k0)).
  set (X := fold_left field_order_step ks []).
  assert (field_order_step [] k0 = if metadata k0 then [] else [k0]) as ->.
  { unfold field_order_step. destruct (metadata k0); [done|].
    by rewrite bool_decide_eq_false_2 by (by intros ?%elem_of_nil). }
  destruct (field_order_step_cases order k0)
    as [[-> [Hm|Hin]]|(-> & Hm & Hnin)].
  - rewrite Hm. simpl. by rewrite filter_not_in_nil.
  - destruct (metadata k0); simpl; [by rewrite filter_not_in_nil|].
    rewrite filter_cons_False by (intros H; by apply H).
    rewrite list_filter_filter. f_equal. apply list_filter_iff. intros x.
    split; [|by intros [? _]]. intros Hx. split; [done|].
    intros Hx'. apply list_elem_of_singleton in Hx' as ->. done.
  - rewrite Hm. simpl.
    rewrite filter_cons_True by done. rewrite list_filter_filter.
    rewrite <- app_assoc. simpl. f_equal. f_equal. apply list_filter_iff.
    intros x. rewrite elem_of_app. split.
    + intros Hx. split; intros ?; apply Hx; [by left|by right].
    + intros [H1 H2] [?|?]; [by apply H1|by apply H2].
Qed.

(** X8: [compute_field_order] lists each field name once, and lists exactly the
    keys of the records other than [match] and [certainty]. *)
Theorem field_order_content (contacts : list record) :
  NoDup (compute_field_order contacts)
  ∧ ∀ k, k ∈ compute_field_order contacts
         ↔ metadata k = false ∧ ∃ c, c ∈ contacts ∧ k ∈ c.*1.
Proof.
  rewrite compute_field_order_flat. split.
  - apply scan_keys_NoDup, NoDup_nil_2.
  - intros k. rewrite scan_keys_elem_of, list_elem_of_bind. split.
    + intros [?%elem_of_nil|[(c & ? & ?) ?]]; [done|]. eauto.
    + intros [? (c & ? & ?)]. right. eauto.
Qed.

(** X9: first-seen order: the order for a list of records followed by more
    records is the order for the first list, followed by the field names that
    are new in the second list, in the order of their own first appearance. *)
Theorem field_order_app (contacts more : list record) :
  compute_field_order (contacts ++ more)
  = compute_field_order contacts
    ++ filter (λ k, k ∉ compute_field_order contacts) (compute_field_order more).
Proof.
  rewrite !compute_field_order_flat, bind_app, fold_left_app.
  apply scan_keys_law.
Qed.

Lemma scan_keys_NoDup_keys ks :
  NoDup ks →
  fold_left field_order_step ks [] = filter (λ k, metadata k = false) ks.
Proof.
  induction ks as [|k0 ks IH]; intros Hnd; [done|].
  apply NoDup_cons in Hnd as [Hk0 Hnd]. simpl.
  rewrite scan_keys_law, (IH Hnd).
  assert (field_order_step [] k0 = if metadata k0 then [] else [k0]) as ->.
  { unfold field_order_step. destruct (metadata k0); [done|].
    by rewrite bool_decide_eq_false_2 by (by intros ?%elem_of_nil). }
  destruct (metadata k0) eqn:Hm.
  - rewrite filter_cons_False by congruence. simpl. apply filter_not_in_nil.
  - rewrite filter_cons_True by done. simpl. f_equal.
    apply filter_all. apply Forall_forall. intros x Hx Hx'.
    apply list_elem_of_singleton in Hx' as ->.
    apply list_elem_of_filter in Hx as [_ ?]. done.
Qed.

(** X10: for a single record the order is the record's own field order, without
    [match] and [certainty]. *)
Theorem field_order_single (contact : record) :
  wf_record contact →
  compute_field_order [contact] = filter (λ k, metadata k = false) contact.*1.
Proof.
  intros Hwf. rewrite compute_field_order_flat. simpl. rewrite app_nil_r.
  by apply scan_keys_NoDup_keys.
Qed.

Lemma field_order_single_witness :
  compute_field_order
    [[("uid", "0"); ("fn", "Jo"); ("match", ""); ("tel", "555"); ("certainty", "")]]
  = ["uid"; "fn"; "tel"].
Proof.
  apply (field_order_single
           [("uid", "0"); ("fn", "Jo"); ("match", ""); ("tel", "555"); ("certainty", "")]).
  by_evaluation.
Defined.

End FieldOrderFacts.

(** ** Deduplication engine: errors, frame and fixed points *)

Module EngineMoreFacts.
Import Str StrFacts DictFacts ScoreFacts EngineFacts MergeFacts MergeMore
  FieldOrderFacts.

Section Engine.

Context {E : Externals}.

(** The inner loop of link mode raises exactly when the first candidate that
    reaches the threshold has no [uid]. *)
Lemma link_scan_None th cur cands :
  link_scan th cur cands = None ↔
  ∃ j candidate,
    cands !! j = Some candidate
    ∧ Qle_bool th (compute_match_score cur candidate) = true
    ∧ (∀ j' c, j' < j → cands !! j' = Some c →
         Qle_bool th (compute_match_score cur c) = false)
    ∧ dict_get "uid" candidate = None.
Proof.
  induction cands as [|c cands IH]; simpl.
  { split; [done|]. intros (j & cand & Hj & _). by rewrite lookup_nil in Hj. }
  destruct (Qle_bool th (compute_match_score cur c)) eqn:Hhit.
  - destruct (dict_get "uid" c) as [u|] eqn:Hu.
    + split; [done|]. intros ([|j] & cand & Hj & Hc & Hfirst & Hnone); simpl in Hj.
      * injection Hj as <-. congruence.
      * specialize (Hfirst 0 c). rewrite Hfirst in Hhit; [done|lia|done].
    + split; [|done]. intros _. exists 0, c. repeat split; try done.
      intros j' c' Hlt. lia.
  - rewrite IH. split.
    + intros (j & cand & Hj & Hc & Hfirst & Hnone). exists (S j), cand.
      repeat split; try done. intros [|j'] c' Hlt Hl; simpl in Hl; [congruence|].
      apply (Hfirst j'); [lia|done].
    + intros ([|j] & cand & Hj & Hc & Hfirst & Hnone); simpl in Hj.
      * injection Hj as <-. congruence.
      * exists j, cand. repeat split; try done. intros j' c' Hlt Hl.
        apply (Hfirst (S j')); [lia|done].
Qed.

(** The annotation touches [match] and [certainty] only. *)
Lemma link_scan_frame th cur cands r :
  link_scan th cur cands = Some r →
  (∀ k, k ≠ "match" → k ≠ "certainty" → dict_get k r = dict_get k cur)
  ∧ filter (λ k, metadata k = false) r.*1 = filter (λ k, metadata k = false) cur.*1
  ∧ ∀ k, k ∈ r.*1 → k ∈ cur.*1 ∨ metadata k = true.
Proof.
  induction cands as [|c cands IH]; simpl.
  { intros [= <-]. split; [done|]. split; [done|]. intros k Hk. by left. }
  destruct (Qle_bool th (compute_match_score cur c)); [|done].
  destruct (dict_get "uid" c) as [u|]; [|done]. intros [= <-].
  assert (∀ k v (r : record), metadata k = true →
            filter (λ k, metadata k = false) (dict_set k v r).*1
            = filter (λ k, metadata k = false) r.*1
            ∧ ∀ k', k' ∈ (dict_set k v r).*1 → k' ∈ r.*1 ∨ metadata k' = true)
    as Hset.
  { intros k v r Hk. rewrite dict_set_keys. case_bool_decide; [by auto|].
    rewrite filter_app, filter_cons_False, filter_nil, app_nil_r by congruence.
    split; [done|]. intros k' [?|Hk']%elem_of_app; [by left|right].
    by apply list_elem_of_singleton in Hk' as ->. }
  destruct (Hset "match" u cur eq_refl) as [Hf1 Hk1].
  destruct (Hset "certainty" (str (compute_match_score cur c))
              (dict_set "match" u cur) eq_refl) as [Hf2 Hk2].
  split; [|split].
  - intros k Hm Hc. by rewrite !dict_get_set_ne.
  - by rewrite Hf2, Hf1.
  - intros k Hk. destruct (Hk2 k Hk) as [Hk'|?]; [|by right].
    destruct (Hk1 k Hk') as [?|?]; [by left|by right].
Qed.

Lemma link_step_general th orig i cs c :
  link_inv th orig i cs → orig !! i = Some c →
  match link_scan th c (take i orig) with
  | Some c' => ∃ cs', link_step th cs i = Some cs' ∧ link_inv th orig (S i) cs'
  | None => link_step th cs i = None
  end.
Proof.
  intros Hinv Hc. pose proof (link_inv_core _ _ _ _ Hinv) as Hcore.
  destruct Hinv as [Hlen Hinv].
  destruct (Hinv i c Hc) as [_ Hcs]. specialize (Hcs (le_n _)).
  assert (link_scan th c (take i cs) = link_scan th c (take i orig)) as Hscan.
  { symmetry. apply link_scan_ext. by apply Forall2_take. }
  unfold link_step. rewrite Hcs, Hscan.
  destruct (link_scan th c (take i orig)) as [c'|] eqn:Hc'; [|done].
  exists (<[i:=c']> cs). split; [done|].
  split; [by rewrite length_insert|].
  pose proof (lookup_lt_Some _ _ _ Hc) as Hi.
  intros k d Hd. destruct (Hinv k d Hd) as [Hlt Hge]. split.
  - intros Hk. destruct (decide (k = i)) as [->|Hne].
    + exists c'. rewrite Hc in Hd. injection Hd as <-.
      split; [done|]. apply list_lookup_insert_eq. lia.
    + rewrite list_lookup_insert_ne by done. apply Hlt. lia.
  - intros Hk. rewrite list_lookup_insert_ne by lia. apply Hge. lia.
Qed.

Lemma link_loop_general th orig n i cs :
  link_inv th orig i cs → i + n ≤ length orig →
  (∃ out, link_loop th (seq i n) cs = Some out ∧ link_inv th orig (i + n) out)
  ∨ (link_loop th (seq i n) cs = None
     ∧ ∃ k c, orig !! k = Some c ∧ link_scan th c (take k orig) = None).
Proof.
  revert i cs. induction n as [|n IH]; intros i cs Hinv Hle; simpl.
  { left. exists cs. by rewrite Nat.add_0_r. }
  destruct (lookup_lt_is_Some_2 orig i) as [c Hc]; [lia|].
  pose proof (link_step_general th orig i cs c Hinv Hc) as Hstep.
  destruct (link_scan th c (take i orig)) as [c'|] eqn:Hscan.
  - destruct Hstep as (cs' & -> & Hinv').
    destruct (IH (S i) cs' Hinv') as [(out & Hout & Hfin)|[Hnone Hex]]; [lia| |].
    + left. exists out. split; [done|]. by replace (i + S n) with (S i + n) by lia.
    + by right.
  - rewrite Hstep. right. split; [done|]. by exists i, c.
Qed.

(** Link mode as a whole: every position holds what its inner loop returns on
    the input, or some inner loop raises and so does the run. *)
Lemma link_run_cases th orig :
  (∃ out, link_loop th (seq 1 (length orig - 1)) orig = Some out
     ∧ length out = length orig
     ∧ ∀ i c, orig !! i = Some c →
         ∃ c', link_scan th c (take i orig) = Some c' ∧ out !! i = Some c')
  ∨ (link_loop th (seq 1 (length orig - 1)) orig = None
     ∧ ∃ k c, orig !! k = Some c ∧ link_scan th c (take k orig) = None).
Proof.
  destruct orig as [|c0 orig'] eqn:Horig.
  { left. exists []. repeat split. intros i c Hc. by rewrite lookup_nil in Hc. }
  rewrite <- Horig.
  destruct (link_loop_general th orig (length orig - 1) 1 orig (link_inv_start th orig))
    as [(out & Hout & Hlen & Hinv)|Hnone]; [rewrite Horig; simpl; lia| |by right].
  left. exists out. repeat split; [done|done|].
  intros i c Hc. destruct (Hinv i c Hc) as [Hlt _]. apply Hlt.
  apply lookup_lt_Some in Hc. rewrite Horig in *. simpl in *. lia.
Qed.

(** Running the inner loop again on its own result, against candidates that
    agree with the first ones on what is read of them, returns that result. *)
Lemma link_scan_rerun th cur cands cands' r :
  link_scan th cur cands = Some r → Forall2 same_core cands cands' →
  link_scan th r cands' = Some r.
Proof.
  intros Hr Hcore. pose proof (link_scan_core th cur cands r Hr) as Hcr.
  revert Hr. induction Hcore as [|c c' cands cands' Hc _ IH]; simpl.
  { by intros [= ->]. }
  assert (compute_match_score r c' = compute_match_score cur c) as ->.
  { symmetry. apply score_ext; intros k Hk.
    - apply Hcr. repeat (apply elem_of_cons in Hk as [->|Hk]; [in_list|]).
      by apply elem_of_nil in Hk.
    - apply Hc. repeat (apply elem_of_cons in Hk as [->|Hk]; [in_list|]).
      by apply elem_of_nil in Hk. }
  rewrite <- (Hc "uid") by in_list.
  destruct (Qle_bool th (compute_match_score cur c)); [|exact IH].
  destruct (dict_get "uid" c) as [u|]; [|done]. intros [= <-]. f_equal.
  rewrite (dict_set_same "match" u).
  - apply dict_set_same, dict_get_set_eq.
  - rewrite dict_get_set_ne by done. apply dict_get_set_eq.
Qed.

(** A miss on every master appends nothing and prints nothing. *)
Lemma scan_masters_miss th dry c ms :
  Forall (λ m, Qle_bool th (compute_match_score c m) = false) ms →
  scan_masters th dry c ms = Some (false, ms, []).
Proof.
  induction 1 as [|m ms Hm _ IH]; simpl; [done|]. by rewrite Hm, IH.
Qed.

Lemma merge_loop_no_hit th dry rest ms printed :
  no_hit th rest ms → merge_loop th dry rest ms printed = Some (ms ++ rest, printed).
Proof.
  revert ms printed. induction rest as [|c rest IH]; intros ms printed Hno; simpl.
  { by rewrite app_nil_r. }
  apply no_hit_cons in Hno as [Hmiss Hno].
  rewrite (scan_masters_miss _ _ _ _ Hmiss), (IH _ _ Hno), app_nil_r.
  by rewrite <- app_assoc.
Qed.

(** A property of masters that merging a record keeps is kept by the inner
    loop of merge mode ... *)
Lemma scan_masters_invariant (P Q : record → Prop) th dry c ms found ms' out :
  (∀ m, Q m → P c → Q (merge_contacts m c)) → P c → Forall Q ms →
  scan_masters th dry c ms = Some (found, ms', out) → Forall Q ms'.
Proof.
  intros Hmerge Hc. revert found ms' out.
  induction ms as [|m ms IH]; intros found ms' out Hms; simpl.
  { by intros [= <- <- <-]. }
  apply Forall_cons in Hms as [Hm Hms].
  destruct (Qle_bool th (compute_match_score c m)).
  - destruct dry.
    + destruct (dict_get "uid" c), (dict_get "uid" m); try done.
      intros [= <- <- <-]. by constructor.
    + intros [= <- <- <-]. constructor; [by apply Hmerge|done].
  - destruct (scan_masters th dry c ms) as [[[f r] o]|] eqn:Hscan; [|done].
    intros [= <- <- <-]. constructor; [done|]. by eapply IH.
Qed.

(** ... and by merge mode as a whole. *)
Lemma merge_loop_invariant (P Q : record → Prop) th dry rest ms printed ms' out :
  (∀ m c, Q m → P c → Q (merge_contacts m c)) → (∀ c, P c → Q c) →
  Forall P rest → Forall Q ms →
  merge_loop th dry rest ms printed = Some (ms', out) → Forall Q ms'.
Proof.
  intros Hmerge HPQ. revert ms printed.
  induction rest as [|c rest IH]; intros ms printed Hrest Hms; simpl.
  { by intros [= <- <-]. }
  apply Forall_cons in Hrest as [Hc Hrest].
  destruct (scan_masters th dry c ms) as [[[found ms1] o]|] eqn:Hscan; [|done].
  pose proof (scan_masters_invariant P Q th dry c ms found ms1 o
                (λ m Hm Hc', Hmerge m c Hm Hc') Hc Hms Hscan) as Hms1.
  apply IH; [done|]. destruct found; [done|].
  apply Forall_app. split; [done|]. constructor; [by apply HPQ|done].
Qed.

(** What a dry run of the inner loop prints. *)
Lemma scan_masters_dry th c ms found ms' out :
  scan_masters th true c ms = Some (found, ms', out) →
  ms' = ms
  ∧ length out = (if found then 1 else 0)
  ∧ Forall (λ n, (th <= notice_score n)%Q
                 ∧ dict_get "uid" c = Some (notice_contact_uid n)
                 ∧ ∃ m, m ∈ ms ∧ dict_get "uid" m = Some (notice_master_uid n)
                        ∧ notice_score n = compute_match_score c m) out.
Proof.
  revert found ms' out. induction ms as [|m ms IH]; intros found ms' out; simpl.
  { by intros [= <- <- <-]. }
  destruct (Qle_bool th (compute_match_score c m)) eqn:Hhit.
  - destruct (dict_get "uid" c) as [cu|] eqn:Hcu; [|done].
    destruct (dict_get "uid" m) as [mu|] eqn:Hmu; [|done].
    intros [= <- <- <-]. split; [done|]. split; [done|].
    constructor; [|done]. simpl. split; [by apply Qle_bool_iff|].
    split; [done|]. exists m. split; [left|done].
  - destruct (scan_masters th true c ms) as [[[f r] o]|] eqn:Hscan; [|done].
    intros [= <- <- <-]. destruct (IH f r o eq_refl) as (-> & Hlen & Hall).
    split; [done|]. split; [done|].
    eapply Forall_impl; [exact Hall|]. intros n (? & ? & m' & ? & ?).
    split; [done|]. split; [done|]. exists m'. split; [by right|done].
Qed.

End Engine.

End EngineMoreFacts.

Module EngineMore.
Import Str StrFacts DictFacts ScoreFacts EngineFacts MergeFacts MergeMore
  FieldOrderFacts EngineMoreFacts.

Lemma field_order_elem_of (contacts : list record) k :
  k ∈ compute_field_order contacts
  ↔ metadata k = false ∧ ∃ c, c ∈ contacts ∧ k ∈ c.*1.
Proof.
  rewrite compute_field_order_flat, scan_keys_elem_of, list_elem_of_bind. split.
  - intros [?%elem_of_nil|[(c & ? & ?) ?]]; [done|]. eauto.
  - intros [? (c & ? & ?)]. right. eauto.
Qed.

Lemma csv_header_elem_of (contacts : list record) c k :
  c ∈ contacts → k ∈ c.*1 → k ∈ csv_header (compute_field_order contacts).
Proof.
  intros Hc Hk. unfold csv_header. apply elem_of_app.
  destruct (metadata k) eqn:Hm.
  - left. unfold metadata in Hm. by apply bool_decide_eq_true_1 in Hm.
  - right. apply field_order_elem_of. eauto.
Qed.

Lemma csv_header_NoDup (contacts : list record) :
  NoDup (csv_header (compute_field_order contacts)).
Proof.
  unfold csv_header. apply NoDup_app. split; [|split].
  - by_evaluation.
  - intros k Hk Hin. apply field_order_elem_of in Hin as [Hm _].
    unfold metadata in Hm. by apply bool_decide_eq_false_1 in Hm.
  - rewrite compute_field_order_flat. apply scan_keys_NoDup, NoDup_nil_2.
Qed.

Lemma scan_keys_filter ks order :
  fold_left field_order_step ks order
  = fold_left field_order_step (filter (λ k, metadata k = false) ks) order.
Proof.
  revert order. induction ks as [|k ks IH]; intros order; [done|].
  simpl. destruct (metadata k) eqn:Hm.
  - rewrite filter_cons_False by congruence.
    unfold field_order_step at 2. rewrite Hm. apply IH.
  - rewrite filter_cons_True by done. simpl. apply IH.
Qed.

(** The field order depends on the records through their keys other than
    [match] and [certainty]. *)
Lemma compute_field_order_ext (cs cs' : list record) :
  Forall2 (λ c c' : record, filter (λ k, metadata k = false) c.*1
                            = filter (λ k, metadata k = false) c'.*1) cs cs' →
  compute_field_order cs = compute_field_order cs'.
Proof.
  unfold compute_field_order. generalize (@nil string).
  intros order H. revert order.
  induction H as [|c c' cs cs' Hc _ IH]; intros order; [done|].
  simpl. rewrite (scan_keys_filter c.*1), Hc, <- (scan_keys_filter c'.*1).
  apply IH.
Qed.

Section Engine.

Context {E : Externals}.

Lemma link_run_Some contacts th dry out printed :
  deduplicate_contacts contacts th false dry = Some (out, printed) →
  printed = [] ∧ length out = length contacts
  ∧ ∀ i c, contacts !! i = Some c →
      ∃ c', link_scan th c (take i contacts) = Some c' ∧ out !! i = Some c'.
Proof.
  unfold deduplicate_contacts. simpl.
  destruct (link_run_cases th contacts) as [(o & -> & Hlen & Hall)|[-> _]]; [|done].
  by intros [= <- <-].
Qed.

(** X11: link mode raises [KeyError] exactly when, for some record, the first
    earlier record that reaches the threshold has no [uid]. *)
Theorem link_mode_key_error (contacts : list record) (threshold : Q)
    (dry_run : bool) :
  deduplicate_contacts contacts threshold false dry_run = None ↔
  ∃ i current j candidate,
    contacts !! i = Some current ∧ j < i ∧ contacts !! j = Some candidate
    ∧ (threshold <= compute_match_score current candidate)%Q
    ∧ (∀ j' c, j' < j → contacts !! j' = Some c →
         ¬ (threshold <= compute_match_score current c)%Q)
    ∧ dict_get "uid" candidate = None.
Proof.
  assert (∀ i current, contacts !! i = Some current →
            link_scan threshold current (take i contacts) = None ↔
            ∃ j candidate,
              j < i ∧ contacts !! j = Some candidate
              ∧ (threshold <= compute_match_score current candidate)%Q
              ∧ (∀ j' c, j' < j → contacts !! j' = Some c →
                   ¬ (threshold <= compute_match_score current c)%Q)
              ∧ dict_get "uid" candidate = None) as Hscan.
  { intros i current Hi. rewrite link_scan_None. split.
    - intros (j & cand & Hj & Hhit & Hfirst & Hnone).
      apply lookup_take_Some in Hj as [Hj Hlt]. exists j, cand.
      split; [done|]. split; [done|]. split; [by apply Qle_bool_iff|].
      split; [|done]. intros j' c Hj' Hc Hle. apply Qle_bool_iff in Hle.
      rewrite (Hfirst j' c) in Hle; [done|done|]. rewrite lookup_take_lt by lia. done.
    - intros (j & cand & Hlt & Hj & Hhit & Hfirst & Hnone). exists j, cand.
      split; [by rewrite lookup_take_lt|]. split; [by apply Qle_bool_iff|].
      split; [|done]. intros j' c Hj' Hc.
      apply lookup_take_Some in Hc as [Hc _].
      destruct (Qle_bool threshold (compute_match_score current c)) eqn:Hb; [|done].
      apply Qle_bool_iff in Hb. by destruct (Hfirst j' c). }
  unfold deduplicate_contacts. simpl.
  destruct (link_run_cases threshold contacts)
    as [(out & -> & _ & Hall)|[-> (k & c & Hk & Hnone)]].
  - split; [done|]. intros (i & cur & j & cand & Hi & Hrest).
    destruct (Hall i cur Hi) as (c' & Hc' & _).
    assert (link_scan threshold cur (take i contacts) = None) as Hn.
    { apply Hscan; [done|]. by exists j, cand. }
    congruence.
  - split; [|done]. intros _. apply Hscan in Hnone as (j & cand & Hrest); [|done].
    by exists k, c, j, cand.
Qed.

(** X12: link mode changes nothing but [match] and [certainty]: every other field
    of every record is returned as it came, and the field order computed from
    the result is the one computed from the input. *)
Theorem link_mode_frame (contacts : list record) (threshold : Q) (dry_run : bool)
    (out : list record) (printed : list notice) :
  deduplicate_contacts contacts threshold false dry_run = Some (out, printed) →
  printed = [] ∧ length out = length contacts
  ∧ compute_field_order out = compute_field_order contacts
  ∧ ∀ i c c' k, contacts !! i = Some c → out !! i = Some c' →
      k ≠ "match" → k ≠ "certainty" → dict_get k c' = dict_get k c.
Proof.
  intros (-> & Hlen & Hall)%link_run_Some.
  split; [done|]. split; [done|]. split.
  - symmetry. apply compute_field_order_ext.
    apply Forall2_same_length_lookup. split; [done|].
    intros i c c' Hc Hc'. destruct (Hall i c Hc) as (r & Hr & Hout).
    rewrite Hc' in Hout. injection Hout as ->.
    apply link_scan_frame in Hr as (_ & Hf & _). done.
  - intros i c c' k Hc Hc' Hm Hcert. destruct (Hall i c Hc) as (r & Hr & Hout).
    rewrite Hc' in Hout. injection Hout as ->.
    apply link_scan_frame in Hr as (Hget & _). by apply Hget.
Qed.

Lemma returned_keys_covered contacts threshold merge dry_run out printed :
  deduplicate_contacts contacts threshold merge dry_run = Some (out, printed) →
  ∀ c k, c ∈ out → k ∈ c.*1 → k ∈ csv_header (compute_field_order contacts).
Proof.
  intros Hrun.
  set (header := csv_header (compute_field_order contacts)).
  assert (Forall (λ c : record, ∀ k, k ∈ c.*1 → k ∈ header) contacts) as Hin.
  { apply Forall_forall. intros c Hc k Hk. by eapply csv_header_elem_of. }
  assert (Forall (λ c : record, ∀ k, k ∈ c.*1 → k ∈ header) out) as Hout.
  { destruct merge.
    - unfold deduplicate_contacts in Hrun. simpl in Hrun.
      eapply (merge_loop_invariant (λ c : record, ∀ k, k ∈ c.*1 → k ∈ header)
                (λ c : record, ∀ k, k ∈ c.*1 → k ∈ header));
        [| |exact Hin|constructor|exact Hrun]; [|done].
      intros m c Hm Hc k Hk.
      destruct (merge_contacts_keys m c) as (_ & _ & Hkeys).
      destruct (Hkeys k Hk) as [?|[? _]]; [by apply Hm|by apply Hc].
    - apply link_run_Some in Hrun as (_ & Hlen & Hall).
      apply Forall_lookup. intros i c' Hc' k Hk.
      destruct (lookup_lt_is_Some_2 contacts i) as [c Hc].
      { rewrite <- Hlen. by eapply lookup_lt_Some. }
      destruct (Hall i c Hc) as (r & Hr & Hri). rewrite Hc' in Hri.
      injection Hri as ->. apply link_scan_frame in Hr as (_ & _ & Hkeys).
      destruct (Hkeys k Hk) as [?|Hm].
      + by apply (Forall_lookup_1 _ _ _ _ Hin Hc).
      + apply elem_of_app. left. unfold metadata in Hm.
        by apply bool_decide_eq_true_1 in Hm. }
  intros c k Hc. rewrite Forall_forall in Hout. by apply Hout.
Qed.


(** X13: whatever the mode, every field of every returned record is a column of
    the CSV header built from the field order of the input, and the header
    has no column twice. *)
Theorem export_header_covers (contacts : list record) (threshold : Q)
    (merge dry_run : bool) (out : list record) (printed : list notice) :
  deduplicate_contacts contacts threshold merge dry_run = Some (out, printed) →
  NoDup (csv_header (compute_field_order contacts))
  ∧ ∀ c k, c ∈ out → k ∈ c.*1 → k ∈ csv_header (compute_field_order contacts).
Proof.
  intros Hrun. split; [apply csv_header_NoDup|]. by eapply returned_keys_covered.
Qed.

(** X14: when no record reaches the threshold against an earlier one, both modes
    return the input list as it is, print nothing, and raise nothing (with or
    without [uid] fields). *)
Theorem no_match_returns_input (contacts : list record) (threshold : Q)
    (merge dry_run : bool) :
  (∀ i j ci cj, j < i → contacts !! i = Some ci → contacts !! j = Some cj →
     ¬ (threshold <= compute_match_score ci cj)%Q) →
  deduplicate_contacts contacts threshold merge dry_run = Some (contacts, []).
Proof.
  intros Hno.
  assert (∀ i ci, contacts !! i = Some ci →
            Forall (λ m, Qle_bool threshold (compute_match_score ci m) = false)
              (take i contacts)) as Hmiss.
  { intros i ci Hi. apply Forall_lookup. intros j cj Hj.
    apply lookup_take_Some in Hj as [Hj Hlt].
    destruct (Qle_bool threshold (compute_match_score ci cj)) eqn:Hb; [|done].
    apply Qle_bool_iff in Hb. by destruct (Hno i j ci cj). }
  destruct merge.
  - unfold deduplicate_contacts. simpl. rewrite merge_loop_no_hit; [done|].
    intros k c Hk. simpl. by apply Hmiss.
  - destruct (deduplicate_contacts contacts threshold false dry_run)
      as [[out printed]|] eqn:Hrun.
    + apply link_run_Some in Hrun as (-> & Hlen & Hall). f_equal. f_equal.
      apply list_eq. intros i. destruct (contacts !! i) as [c|] eqn:Hc.
      * destruct (Hall i c Hc) as (r & Hr & ->). f_equal.
        apply link_scan_spec in Hr as [(j & cand & u & Hj & Hhit & _)|[_ ->]]; [|done].
        pose proof (Forall_lookup_1 _ _ _ _ (Hmiss i c Hc) Hj) as Hf.
        simpl in Hf. congruence.
      * apply lookup_ge_None. rewrite Hlen. by apply lookup_ge_None.
    + exfalso. unfold deduplicate_contacts in Hrun. simpl in Hrun.
      destruct (link_run_cases threshold contacts)
        as [(out & Ho & _)|[_ (k & c & Hk & Hnone)]]; [by rewrite Ho in Hrun|].
      apply link_scan_None in Hnone as (j & cand & Hj & Hhit & _).
      pose proof (Forall_lookup_1 _ _ _ _ (Hmiss k c Hk) Hj) as Hf.
      simpl in Hf. congruence.
Qed.

(** X15: link mode is idempotent: run on its own result it returns that result. *)
Theorem link_mode_idempotent (contacts : list record) (threshold : Q)
    (dry_run dry_run' : bool) (out : list record) (printed : list notice) :
  deduplicate_contacts contacts threshold false dry_run = Some (out, printed) →
  deduplicate_contacts out threshold false dry_run' = Some (out, []).
Proof.
  intros (-> & Hlen & Hall)%link_run_Some.
  assert (Forall2 same_core contacts out) as Hcore.
  { apply Forall2_same_length_lookup. split; [done|].
    intros i c c' Hc Hc'. destruct (Hall i c Hc) as (r & Hr & Hout).
    rewrite Hc' in Hout. injection Hout as ->. by eapply link_scan_core. }
  assert (∀ i r, out !! i = Some r →
            link_scan threshold r (take i out) = Some r) as Hrerun.
  { intros i r Hr. destruct (lookup_lt_is_Some_2 contacts i) as [c Hc].
    { rewrite <- Hlen. by eapply lookup_lt_Some. }
    destruct (Hall i c Hc) as (r' & Hscan & Hout). rewrite Hr in Hout.
    injection Hout as <-. eapply link_scan_rerun; [exact Hscan|].
    by apply Forall2_take. }
  unfold deduplicate_contacts. simpl.
  destruct (link_run_cases threshold out)
    as [(out2 & -> & Hlen2 & Hall2)|[_ (k & r & Hk & Hnone)]].
  - f_equal. f_equal. apply list_eq. intros i.
    destruct (out !! i) as [r|] eqn:Hr.
    + destruct (Hall2 i r Hr) as (r2 & Hr2 & ->). by rewrite (Hrerun i r Hr) in Hr2.
    + apply lookup_ge_None. rewrite Hlen2. by apply lookup_ge_None.
  - by rewrite (Hrerun k r Hk) in Hnone.
Qed.

(** X16: in merge mode (not a dry run) a record is absorbed by the first master, in
    the order of the master list, that it reaches the threshold against; the
    other masters are left as they are; without such a master the list is
    unchanged and the record is reported as unmatched. *)
Theorem merge_first_master (threshold : Q) (contact : record)
    (masters : list record) :
  (Forall (λ m, ¬ (threshold <= compute_match_score contact m)%Q) masters
   ∧ scan_masters threshold false contact masters = Some (false, masters, []))
  ∨ (∃ pre m post,
       masters = pre ++ m :: post
       ∧ Forall (λ m', ¬ (threshold <= compute_match_score contact m')%Q) pre
       ∧ (threshold <= compute_match_score contact m)%Q
       ∧ scan_masters threshold false contact masters
         = Some (true, pre ++ merge_contacts m contact :: post, [])).
Proof.
  induction masters as [|m ms IH]; simpl; [by left|].
  destruct (Qle_bool threshold (compute_match_score contact m)) eqn:Hhit.
  - right. exists [], m, ms. split; [done|]. split; [done|].
    split; [by apply Qle_bool_iff|done].
  - assert (¬ (threshold <= compute_match_score contact m)%Q) as Hm.
    { intros H. apply Qle_bool_iff in H. congruence. }
    destruct IH as [[Hall ->]|(pre & m' & post & -> & Hpre & Hm' & ->)].
    + left. split; [by constructor|done].
    + right. exists (m :: pre), m', post. split; [done|].
      split; [by constructor|]. split; done.
Qed.

Lemma merge_loop_dry th rest ms printed ms' out :
  merge_loop th true rest ms printed = Some (ms', out) →
  ∃ fs news,
    ms' = ms ++ fs ∧ fs `sublist_of` rest ∧ out = printed ++ news
    ∧ length fs + length news = length rest
    ∧ Forall (λ n, (th <= notice_score n)%Q
                   ∧ ∃ c m, c ∈ rest ∧ m ∈ ms ++ rest
                            ∧ dict_get "uid" c = Some (notice_contact_uid n)
                            ∧ dict_get "uid" m = Some (notice_master_uid n)
                            ∧ notice_score n = compute_match_score c m) news.
Proof.
  revert ms printed. induction rest as [|c rest IH]; intros ms printed; simpl.
  { intros [= <- <-]. exists [], []. by rewrite !app_nil_r. }
  destruct (scan_masters th true c ms) as [[[found ms1] o]|] eqn:Hscan; [|done].
  apply scan_masters_dry in Hscan as (-> & Hlen & Hall).
  intros (fs & news & -> & Hsub & -> & Hcount & Hnews)%IH.
  destruct found.
  - exists fs, (o ++ news). split; [done|]. split; [by constructor|].
    split; [by rewrite app_assoc|]. split; [rewrite length_app; lia|].
    apply Forall_app. split.
    + eapply Forall_impl; [exact Hall|]. intros n (? & ? & m & Hm & ? & ?).
      split; [done|]. exists c, m. split; [left|]. split; [|done].
      apply elem_of_app. by left.
    + eapply Forall_impl; [exact Hnews|]. intros n (? & c' & m & ? & Hm & ?).
      split; [done|]. exists c', m. split; [by right|]. split; [|done].
      apply elem_of_app in Hm as [?|?]; apply elem_of_app; [by left|right; by right].
  - destruct o; [|done]. exists (c :: fs), news.
    split; [by rewrite <- app_assoc|]. split; [by constructor|].
    split; [by rewrite app_nil_r|]. split; [simpl; lia|].
    eapply Forall_impl; [exact Hnews|]. intros n (? & c' & m & ? & Hm & ?).
    split; [done|]. exists c', m. split; [by right|]. split; [|done].
    rewrite <- app_assoc in Hm. done.
Qed.

(** X17: a dry run of merge mode changes no record: it returns a subsequence of the
    input, prints one notice for every record it leaves out, and every notice
    names the [uid]s of two input records whose score, the one printed,
    reaches the threshold. *)
Theorem dry_run_reports (contacts : list record) (threshold : Q)
    (masters : list record) (printed : list notice) :
  deduplicate_contacts contacts threshold true true = Some (masters, printed) →
  masters `sublist_of` contacts
  ∧ length masters + length printed = length contacts
  ∧ Forall (λ n, (threshold <= notice_score n)%Q
                 ∧ ∃ c m, c ∈ contacts ∧ m ∈ contacts
                          ∧ dict_get "uid" c = Some (notice_contact_uid n)
                          ∧ dict_get "uid" m = Some (notice_master_uid n)
                          ∧ notice_score n = compute_match_score c m) printed.
Proof.
  unfold deduplicate_contacts. simpl.
  intros (fs & news & -> & Hsub & -> & Hcount & Hnews)%merge_loop_dry.
  simpl. done.
Qed.

End Engine.

Lemma link_mode_key_error_witness :
  deduplicate_contacts (E := SpecFuzz.reference)
    [[("tel", "555"); ("fn", "Jo Doe")]; [("tel", "555"); ("fn", "Doe Jo")]]
    80 false false = None.
Proof.
  apply (link_mode_key_error (E := SpecFuzz.reference)).
  exists 1, [("tel", "555"); ("fn", "Doe Jo")], 0, [("tel", "555"); ("fn", "Jo Doe")].
  split; [reflexivity|]. split; [lia|]. split; [reflexivity|].
  split; [vm_compute; discriminate|]. split; [intros j' c Hlt; lia|reflexivity].
Defined.

Lemma link_mode_frame_witness :
  compute_field_order
    [[("uid", "0"); ("tel", "555-1234"); ("match", ""); ("certainty", "")];
     [("uid", "1"); ("tel", "5551234"); ("match", "0"); ("certainty", "100.0")]]
  = compute_field_order
    [[("uid", "0"); ("tel", "555-1234"); ("match", ""); ("certainty", "")];
     [("uid", "1"); ("tel", "5551234"); ("match", ""); ("certainty", "")]].
Proof.
  apply (link_mode_frame (E := SpecFuzz.reference)
           [[("uid", "0"); ("tel", "555-1234"); ("match", ""); ("certainty", "")];
            [("uid", "1"); ("tel", "5551234"); ("match", ""); ("certainty", "")]]
           100%Q false
           [[("uid", "0"); ("tel", "555-1234"); ("match", ""); ("certainty", "")];
            [("uid", "1"); ("tel", "5551234"); ("match", "0"); ("certainty", "100.0")]]
           []).
  vm_compute. reflexivity.
Defined.

Lemma export_header_covers_witness :
  NoDup (csv_header (compute_field_order
    [[("uid", "0"); ("tel", "555-1234"); ("match", ""); ("certainty", "")];
     [("uid", "1"); ("tel", "5551234"); ("match", ""); ("certainty", "")]])).
Proof.
  apply (export_header_covers (E := SpecFuzz.reference)
           [[("uid", "0"); ("tel", "555-1234"); ("match", ""); ("certainty", "")];
            [("uid", "1"); ("tel", "5551234"); ("match", ""); ("certainty", "")]]
           100%Q true false
           [[("uid", "0"); ("tel", "555-1234;5551234"); ("match", ""); ("certainty", "")]]
           []).
  vm_compute. reflexivity.
Defined.

Lemma no_match_returns_input_witness :
  deduplicate_contacts (E := SpecFuzz.reference)
    [[("tel", "555")]; [("tel", "777")]] 80 false false
  = Some ([[("tel", "555")]; [("tel", "777")]], []).
Proof.
  apply (no_match_returns_input (E := SpecFuzz.reference)).
  intros i j ci cj Hlt Hi Hj Hle. apply Qle_bool_iff in Hle.
  destruct i as [|[|i]], j as [|[|j]]; simpl in Hi, Hj; try lia; try done.
  injection Hi as <-. injection Hj as <-. vm_compute in Hle. discriminate.
Defined.

Lemma link_mode_idempotent_witness :
  deduplicate_contacts (E := SpecFuzz.reference)
    [[("uid", "0"); ("tel", "555-1234"); ("match", ""); ("certainty", "")];
     [("uid", "1"); ("tel", "5551234"); ("match", "0"); ("certainty", "100.0")]]
    100 false true
  = Some ([[("uid", "0"); ("tel", "555-1234"); ("match", ""); ("certainty", "")];
           [("uid", "1"); ("tel", "5551234"); ("match", "0"); ("certainty", "100.0")]], []).
Proof.
  apply (link_mode_idempotent (E := SpecFuzz.reference)
           [[("uid", "0"); ("tel", "555-1234"); ("match", ""); ("certainty", "")];
            [("uid", "1"); ("tel", "5551234"); ("match", ""); ("certainty", "")]]
           100%Q false true _ []).
  vm_compute. reflexivity.
Defined.

Lemma dry_run_reports_witness :
  [[("uid", "0"); ("tel", "555-1234"); ("match", ""); ("certainty", "")]]
  `sublist_of`
  [[("uid", "0"); ("tel", "555-1234"); ("match", ""); ("certainty", "")];
   [("uid", "1"); ("tel", "5551234"); ("match", ""); ("certainty", "")]].
Proof.
  apply (dry_run_reports (E := SpecFuzz.reference)
           [[("uid", "0"); ("tel", "555-1234"); ("match", ""); ("certainty", "")];
            [("uid", "1"); ("tel", "5551234"); ("match", ""); ("certainty", "")]]
           100%Q
           [[("uid", "0"); ("tel", "555-1234"); ("match", ""); ("certainty", "")]]
           [Notice "1" "0" (700 # 7)]).
  vm_compute. reflexivity.
Defined.

End EngineMore.

(** ** Import and export *)

Module ImportExport.
Import Str StrFacts DictFacts EngineFacts MergeMore FieldOrderFacts
  EngineMoreFacts EngineMore.

Lemma dict_get_set k k' v r :
  dict_get k' (dict_set k v r) = if decide (k = k') then Some v else dict_get k' r.
Proof.
  case_decide as H; [subst; apply dict_get_set_eq|by apply dict_get_set_ne].
Qed.

Lemma card_fields_absent card r k :
  k ∉ card.*1 → dict_get k (card_fields card r) = dict_get k r.
Proof.
  revert r. induction card as [|[k0 it0] card IH]; intros r Hk; [done|].
  rewrite fmap_cons in Hk. apply not_elem_of_cons in Hk as [Hne Hk].
  simpl. rewrite IH by done. by apply dict_get_set_ne.
Qed.

Lemma card_fields_present card r k items :
  NoDup (card.*1) → (k, items) ∈ card →
  dict_get k (card_fields card r) = Some (joined_items items).
Proof.
  revert r. induction card as [|[k0 it0] card IH]; intros r Hnd Hin.
  { by apply elem_of_nil in Hin. }
  rewrite fmap_cons in Hnd. apply NoDup_cons in Hnd as [Hk0 Hnd].
  apply elem_of_cons in Hin as [[= -> ->]|Hin]; simpl.
  - rewrite card_fields_absent by done. apply dict_get_set_eq.
  - by apply IH.
Qed.

Lemma card_fields_is_Some card r k :
  is_Some (dict_get k r) → is_Some (dict_get k (card_fields card r)).
Proof.
  revert r. induction card as [|[k0 it0] card IH]; intros r Hr; [done|].
  simpl. apply IH. rewrite dict_get_set. by case_decide.
Qed.

Lemma vcard_to_contact_get idx card k :
  dict_get k (vcard_to_contact idx card)
  = if metadata k then Some ""
    else dict_get k (card_fields card (dict_set "uid" (pretty idx) [])).
Proof.
  unfold vcard_to_contact. rewrite !dict_get_set. unfold metadata.
  repeat case_decide; subst; try done.
  - rewrite bool_decide_eq_true_2; [done|in_list].
  - rewrite bool_decide_eq_true_2; [done|in_list].
  - rewrite bool_decide_eq_false_2; [done|].
    intros Hk. repeat (apply elem_of_cons in Hk as [?|Hk]; [done|]).
    by apply elem_of_nil in Hk.
Qed.

(** X19: the importer returns one contact per vCard, each with empty [match] and
    [certainty] (whatever the card holds under these names) and with a
    [uid]. *)
Theorem import_shape (vcards : list vcard) :
  length (parse_vcf_to_contacts vcards) = length vcards
  ∧ Forall (λ c, dict_get "match" c = Some "" ∧ dict_get "certainty" c = Some ""
                 ∧ has_uid c) (parse_vcf_to_contacts vcards).
Proof.
  unfold parse_vcf_to_contacts. split; [apply length_imap|].
  apply Forall_lookup. intros i c Hc.
  apply list_lookup_imap_Some in Hc as (card & _ & ->).
  rewrite !vcard_to_contact_get. split; [done|]. split; [done|].
  unfold has_uid. rewrite vcard_to_contact_get.
  apply card_fields_is_Some. by rewrite dict_get_set_eq.
Qed.

Lemma imported_have_uid (vcards : list vcard) :
  Forall has_uid (parse_vcf_to_contacts vcards).
Proof.
  unfold parse_vcf_to_contacts. apply Forall_lookup. intros i c Hc.
  apply list_lookup_imap_Some in Hc as (card & _ & ->).
  unfold has_uid. rewrite vcard_to_contact_get.
  apply card_fields_is_Some. by rewrite dict_get_set_eq.
Qed.

(** X20: on contacts imported from vCards, deduplication never raises, in either
    mode, dry run or not. *)
Theorem import_then_deduplicate `{E : Externals} (vcards : list vcard)
    (threshold : Q) (merge dry_run : bool) :
  is_Some (deduplicate_contacts (parse_vcf_to_contacts vcards) threshold
             merge dry_run).
Proof.
  pose proof (imported_have_uid vcards) as Huid.
  unfold deduplicate_contacts. destruct merge; simpl.
  - destruct (merge_loop_spec threshold dry_run (λ _, True)
                (parse_vcf_to_contacts vcards) [] [])
      as (gs & out & fs & Hloop & _); [done| |done|].
    + apply Forall_forall. done.
    + simpl in Hloop. rewrite Hloop. done.
  - destruct (link_loop_result threshold _ Huid) as (out & -> & _). done.
Qed.

(** X21: when no vCard has a [uid] property of its own, the contacts get the
    decimal positions 0, 1, 2, ... as [uid]s, all different. *)
Theorem import_uid_sequential (vcards : list vcard) :
  Forall (λ card, "uid" ∉ card.*1) vcards →
  dict_get "uid" <$> parse_vcf_to_contacts vcards
  = (λ i, Some (pretty i)) <$> seq 0 (length vcards)
  ∧ NoDup (dict_get "uid" <$> parse_vcf_to_contacts vcards).
Proof.
  intros Hno.
  assert (dict_get "uid" <$> parse_vcf_to_contacts vcards
          = (λ i, Some (pretty i)) <$> seq 0 (length vcards)) as Heq.
  { apply list_eq. intros i. unfold parse_vcf_to_contacts.
    rewrite !list_lookup_fmap, list_lookup_imap.
    destruct (vcards !! i) as [card|] eqn:Hcard; simpl.
    - rewrite lookup_seq_lt by (by eapply lookup_lt_Some). simpl. f_equal.
      rewrite vcard_to_contact_get. simpl.
      rewrite card_fields_absent by (by eapply Forall_lookup_1 in Hno).
      reflexivity.
    - rewrite lookup_seq_ge; [done|]. by apply lookup_ge_None. }
  split; [done|]. rewrite Heq. apply NoDup_fmap_2; [|apply NoDup_seq].
  intros i j [= H]. by apply (inj pretty) in H.
Qed.

Lemma import_uid_sequential_witness :
  dict_get "uid" <$> parse_vcf_to_contacts
    [[("version", [Some "3.0"]); ("fn", [Some "Jo Doe"])];
     [("fn", [Some "Al"]); ("tel", [Some "555"; Some "777"])]]
  = (λ i, Some (pretty i)) <$> seq 0 2.
Proof.
  apply (import_uid_sequential
           [[("version", [Some "3.0"]); ("fn", [Some "Jo Doe"])];
            [("fn", [Some "Al"]); ("tel", [Some "555"; Some "777"])]]).
  repeat constructor; by_evaluation.
Defined.

(** X22: every property of a vCard other than [match] and [certainty] becomes a
    field whose value is the property's items joined by [;]. This includes a
    [uid] property: the card's own identifier then replaces the position. *)
Theorem import_fields (vcards : list vcard) (i : nat) (card : vcard)
    (k : string) (items : list (option string)) :
  vcards !! i = Some card → NoDup (card.*1) → (k, items) ∈ card →
  metadata k = false →
  ∃ c, parse_vcf_to_contacts vcards !! i = Some c
       ∧ dict_get k c = Some (joined_items items).
Proof.
  intros Hcard Hnd Hin Hk. exists (vcard_to_contact i card). split.
  - unfold parse_vcf_to_contacts. by rewrite list_lookup_imap, Hcard.
  - rewrite vcard_to_contact_get, Hk. by apply card_fields_present.
Qed.

Lemma import_fields_witness :
  ∃ c, parse_vcf_to_contacts
         [[("fn", [Some "Jo"])];
          [("uid", [Some "urn:x-1"]); ("tel", [Some "555"; None; Some "777"])]]
       !! 1 = Some c
       ∧ dict_get "uid" c = Some (joined_items [Some "urn:x-1"]).
Proof.
  apply (import_fields
           [[("fn", [Some "Jo"])];
            [("uid", [Some "urn:x-1"]); ("tel", [Some "555"; None; Some "777"])]]
           1 [("uid", [Some "urn:x-1"]); ("tel", [Some "555"; None; Some "777"])]
           "uid" [Some "urn:x-1"] eq_refl).
  - by_evaluation.
  - left.
  - reflexivity.
Defined.

Lemma concat_cons2 sep v v' vs :
  String.concat sep (v :: v' :: vs) = v +:+ sep +:+ String.concat sep (v' :: vs).
Proof. reflexivity. Qed.

(** X23: the scorer's [split(';')] undoes the importer's [';'.join]: the
    sub-values of an imported field are the sub-values of the items, in
    order; items free of [;] come back one by one. *)
Theorem join_then_split (items : list (option string)) :
  items ≠ [] →
  Str.split ";" (joined_items items) = (item_value <$> items) ≫= Str.split ";".
Proof.
  unfold joined_items. intros Hne.
  assert (item_value <$> items ≠ []) as Hv by (by destruct items).
  revert Hv. generalize (item_value <$> items). clear. intros values.
  induction values as [|v [|v' vs] IH]; intros Hv; [done| |].
  - simpl. by rewrite app_nil_r.
  - rewrite concat_cons2.
    change (";" +:+ String.concat ";" (v' :: vs))
      with (String ";" (String.concat ";" (v' :: vs))).
    rewrite split_app, IH by done. done.
Qed.

Lemma join_then_split_witness :
  Str.split ";" (joined_items [Some "555"; None; Some "777;888"])
  = ["555"; ""; "777"; "888"].
Proof.
  apply (join_then_split [Some "555"; None; Some "777;888"]). discriminate.
Defined.

Lemma vcf_fields_keys fo (c : record) :
  (vcf_fields fo c).*1 = filter (λ k, is_Some (dict_get k c)) fo.
Proof.
  unfold vcf_fields. induction fo as [|k fo IH]; [done|].
  cbn [omap list_omap]. destruct (dict_get k c) as [v|] eqn:Hk; cbn [fmap option_fmap option_map].
  - rewrite filter_cons_True by (by rewrite Hk). by rewrite fmap_cons, IH.
  - rewrite filter_cons_False; [done|]. rewrite Hk. by intros [? ?].
Qed.

Lemma vcf_fields_elem_of fo (c : record) k v :
  (k, v) ∈ vcf_fields fo c ↔ k ∈ fo ∧ dict_get k c = Some v.
Proof.
  unfold vcf_fields. rewrite list_elem_of_omap. split.
  - intros (key & Hkey & Hf). destruct (dict_get key c) as [v'|] eqn:Hget; [|done].
    simpl in Hf. injection Hf as <- <-. done.
  - intros [Hk Hget]. exists k. split; [done|]. by rewrite Hget.
Qed.

(** X24: the VCF export passes to [card.add], for the card of a returned
    record, each of the record's fields once, except [match] and [certainty],
    which it never passes. *)
Theorem vcf_export_fields `{E : Externals} (contacts : list record)
    (threshold : Q) (merge dry_run : bool) (out : list record)
    (printed : list notice) (c : record) :
  deduplicate_contacts contacts threshold merge dry_run = Some (out, printed) →
  c ∈ out →
  NoDup (vcf_fields (compute_field_order contacts) c).*1
  ∧ ∀ k v, (k, v) ∈ vcf_fields (compute_field_order contacts) c
           ↔ metadata k = false ∧ dict_get k c = Some v.
Proof.
  intros Hrun Hc. split.
  - rewrite vcf_fields_keys. apply NoDup_filter.
    rewrite compute_field_order_flat. apply scan_keys_NoDup, NoDup_nil_2.
  - intros k v. rewrite vcf_fields_elem_of. split.
    + intros [Hk Hget]. split; [|done]. by apply field_order_elem_of in Hk as [? _].
    + intros [Hm Hget]. split; [|done].
      assert (k ∈ c.*1) as Hkey by (apply dict_get_keys; eauto).
      pose proof (returned_keys_covered _ _ _ _ _ _ Hrun c k Hc Hkey) as Hcov.
      unfold csv_header in Hcov. apply elem_of_app in Hcov as [Hmeta|?]; [|done].
      unfold metadata in Hm. by apply bool_decide_eq_false_1 in Hm.
Qed.

Lemma vcf_export_fields_witness :
  NoDup (vcf_fields
           (compute_field_order
              [[("uid", "0"); ("tel", "555-1234"); ("match", ""); ("certainty", "")];
               [("uid", "1"); ("tel", "5551234"); ("match", ""); ("certainty", "")]])
           [("uid", "0"); ("tel", "555-1234;5551234"); ("match", ""); ("certainty", "")]).*1.
Proof.
  apply (vcf_export_fields (E := SpecFuzz.reference)
           [[("uid", "0"); ("tel", "555-1234"); ("match", ""); ("certainty", "")];
            [("uid", "1"); ("tel", "5551234"); ("match", ""); ("certainty", "")]]
           100%Q true false
           [[("uid", "0"); ("tel", "555-1234;5551234"); ("match", ""); ("certainty", "")]]
           []).
  - vm_compute. reflexivity.
  - left.
Defined.

End ImportExport.

(** ** Normalised values and master identity *)

Module Composition.
Import Str StrFacts DictFacts ScoreFacts EngineFacts MergeFacts MergeMore
  EngineMoreFacts.

Lemma inner_scores_filter (sim : string → string → Q) x (ys : list string) :
  (ys ≫= λ y, if truthy x && truthy y then [sim x y] else [])
  = (filter (λ y, truthy y = true) ys
       ≫= λ y, if truthy x && truthy y then [sim x y] else []).
Proof.
  induction ys as [|y ys IH]; [done|]. rewrite bind_cons, IH.
  destruct (decide (truthy y = true)) as [Hy|Hy].
  - rewrite filter_cons_True by done. by rewrite bind_cons.
  - rewrite filter_cons_False by done.
    destruct (truthy y); [done|]. by rewrite andb_false_r.
Qed.

Lemma inner_scores_empty (sim : string → string → Q) x (ys : list string) :
  truthy x = false →
  (ys ≫= λ y, if truthy x && truthy y then [sim x y] else []) = [].
Proof.
  intros Hx. induction ys as [|y ys IH]; [done|]. by rewrite bind_cons, IH, Hx.
Qed.

(** Empty normalised values take no part in a comparison. *)
Lemma pair_scores_filter sim xs ys :
  pair_scores sim xs ys
  = pair_scores sim (filter (λ x, truthy x = true) xs)
      (filter (λ y, truthy y = true) ys).
Proof.
  unfold pair_scores. induction xs as [|x xs IH]; [done|].
  rewrite bind_cons, IH. destruct (decide (truthy x = true)) as [Hx|Hx].
  - rewrite filter_cons_True by done. rewrite bind_cons. f_equal.
    apply inner_scores_filter.
  - rewrite filter_cons_False by done.
    rewrite inner_scores_empty; [done|]. by destruct (truthy x).
Qed.

Lemma pair_scores_nil_r sim xs : pair_scores sim xs [] = [].
Proof.
  unfold pair_scores. induction xs as [|x xs IH]; [done|]. by rewrite bind_cons, IH.
Qed.

Lemma sub_values_empty norm : sub_values norm "" = [].
Proof. reflexivity. Qed.

(** A missing or empty field compares like a field without sub-values. *)
Lemma multi_score_alt sim norm k a b :
  multi_score sim norm k a b
  = match py_max (pair_scores sim (sub_values norm (field_value k a))
                    (sub_values norm (field_value k b))) with
    | Some m => [m]
    | None => []
    end.
Proof.
  unfold multi_score, field_value.
  destruct (dict_get k a) as [va|], (dict_get k b) as [vb|]; simpl;
    rewrite ?sub_values_empty, ?pair_scores_nil_r; try done.
  destruct (truthy va) eqn:Ha; [|apply truthy_false in Ha as ->; by rewrite sub_values_empty].
  destruct (truthy vb) eqn:Hb; [done|]. apply truthy_false in Hb as ->.
  by rewrite sub_values_empty, pair_scores_nil_r.
Qed.

Section Engine.

Context {E : Externals}.

Lemma score_list_normalised a a' b :
  phone_numbers a = phone_numbers a' →
  email_addresses a = email_addresses a' →
  dict_get "fn" a = dict_get "fn" a' →
  score_list a b = score_list a' b ∧ score_list b a = score_list b a'.
Proof.
  unfold phone_numbers, email_addresses. intros Htel Hmail Hfn.
  unfold score_list, name_score. rewrite !multi_score_alt, Hfn.
  rewrite (pair_scores_filter _ (sub_values normalize_phone (field_value "tel" a))).
  rewrite (pair_scores_filter _ (sub_values normalize_email (field_value "email" a))).
  rewrite (pair_scores_filter _ _ (sub_values normalize_phone (field_value "tel" a))).
  rewrite (pair_scores_filter _ _ (sub_values normalize_email (field_value "email" a))).
  rewrite Htel, Hmail.
  rewrite <- !pair_scores_filter. done.
Qed.

(** X4: the score sees telephone numbers and e-mail addresses only through their
    normalised, non-empty sub-values: formatting characters in a number,
    letter case and surrounding blanks in an address, and sub-values without
    any digit do not change a score. *)
Theorem score_reads_normalised_values (a a' b : record) :
  phone_numbers a = phone_numbers a' →
  email_addresses a = email_addresses a' →
  dict_get "fn" a = dict_get "fn" a' →
  compute_match_score a b = compute_match_score a' b
  ∧ compute_match_score b a = compute_match_score b a'.
Proof.
  intros Htel Hmail Hfn.
  destruct (score_list_normalised a a' b Htel Hmail Hfn) as [H1 H2].
  by rewrite !score_of_list, H1, H2.
Qed.

(** X18: in merge mode every returned master stems from an input record: it has
    that record's [uid], [match] and [certainty] and starts with that
    record's fields in their order; and masters of dictionaries are
    dictionaries. *)
Theorem merge_mode_masters_identity (contacts : list record) (threshold : Q)
    (dry_run : bool) (masters : list record) (printed : list notice) :
  deduplicate_contacts contacts threshold true dry_run = Some (masters, printed) →
  Forall (λ m : record, ∃ f : record,
            f ∈ contacts ∧ f.*1 `prefix_of` m.*1
            ∧ ∀ k, reserved k = true → dict_get k m = dict_get k f) masters
  ∧ (Forall wf_record contacts → Forall wf_record masters).
Proof.
  unfold deduplicate_contacts. simpl. intros Hrun. split.
  - apply (merge_loop_invariant (λ c, c ∈ contacts)
             (λ m : record, ∃ f : record,
                f ∈ contacts ∧ f.*1 `prefix_of` m.*1
                ∧ ∀ k, reserved k = true → dict_get k m = dict_get k f)
             threshold dry_run contacts [] [] masters printed).
    + intros m c (f & Hf & Hpre & Hres) _. exists f. split; [done|]. split.
      * etrans; [exact Hpre|]. apply merge_contacts_keys.
      * intros k Hk. rewrite merge_contacts_get_reserved by done. by apply Hres.
    + intros c Hc. exists c. done.
    + apply Forall_forall. auto.
    + constructor.
    + exact Hrun.
  - intros Hwf.
    apply (merge_loop_invariant wf_record wf_record
             threshold dry_run contacts [] [] masters printed).
    + intros m c Hm _. by apply merge_contacts_keys.
    + done.
    + exact Hwf.
    + constructor.
    + exact Hrun.
Qed.

End Engine.

Lemma score_reads_normalised_values_witness :
  compute_match_score (E := SpecFuzz.reference)
    [("tel", "555-1234;" +:+ utf8 0x2003 +:+ "(777) " +:+ utf8 0x661);
     ("email", utf8 0xA0 +:+ "Jo@X.org ")]
    [("tel", "5551234"); ("email", "jo@x.org")]
  = compute_match_score (E := SpecFuzz.reference)
    [("tel", "5551234;n/a;777" +:+ utf8 0x661); ("email", "jo@x.org;");
     ("uid", "4")]
    [("tel", "5551234"); ("email", "jo@x.org")].
Proof.
  apply (score_reads_normalised_values (E := SpecFuzz.reference)
           [("tel", "555-1234;" +:+ utf8 0x2003 +:+ "(777) " +:+ utf8 0x661);
            ("email", utf8 0xA0 +:+ "Jo@X.org ")]
           [("tel", "5551234;n/a;777" +:+ utf8 0x661); ("email", "jo@x.org;");
            ("uid", "4")]);
    by vm_compute.
Defined.

Lemma merge_mode_masters_identity_witness :
  Forall (λ m : record, ∃ f : record,
            f ∈ [[("uid", "0"); ("tel", "555-1234")]; [("uid", "1"); ("tel", "5551234")]]
            ∧ f.*1 `prefix_of` m.*1
            ∧ ∀ k, reserved k = true → dict_get k m = dict_get k f)
    [[("uid", "0"); ("tel", "555-1234;5551234")]].
Proof.
  apply (merge_mode_masters_identity (E := SpecFuzz.reference)
           [[("uid", "0"); ("tel", "555-1234")]; [("uid", "1"); ("tel", "5551234")]]
           100%Q false [[("uid", "0"); ("tel", "555-1234;5551234")]] []).
  vm_compute. reflexivity.
Defined.

End Composition.
